(** * UMPlayer: the [MediaPlayer] controller of [script.js]

    A shallow embedding of the playback / playlist state machine of
    [class MediaPlayer] and of the bookkeeping of object URLs, followed by
    the properties of it that the specification states and by further
    properties read off the code.

    Conventions of the embedding.
    - A method of the class is a [Handler]: a function from the state to an
      [Outcome].  [Done s] is a normal return, [Thrown s] an uncaught
      exception; both carry the state, since what a handler wrote before it
      threw stays written.
    - JavaScript numbers that the controller computes with are of two kinds.
      Indices are integers ([Z]); times, fractions and percentages are [num]:
      an exact rational or one of [NaN], [+Infinity], [-Infinity].  Rounding
      of doubles and the sign of zero are not modelled.
    - What the environment decides is an argument of the event that brings
      it: the pointer geometry, the draw of [Math.random()], the duration the
      platform reports.
    - The DOM is kept as far as the controller reads it back or as far as it
      reports something to the user: the error panel, the playlist listing,
      the drop zone, the progress fill, the volume slider and the play
      button.  Labels that are only ever written (file info, time text, the
      mute glyph, button opacities, the loading mark, the display of the
      control bar) are left out.
    - The listing of the playlist is kept as the file names its entries are
      built from.  [updatePlaylist] hands each name to the HTML parser
      unescaped; what the parser makes of it is modelled for the names that
      are plain text ([plainName]) and for the names that bring one button
      of their own ([injectedIdx]).  Names with other markup are outside the
      model, and the properties that depend on the listing are stated for
      sessions whose names are plain ([reachablePlain]).
    - The store is followed on the run in which it accepts what [saveState]
      writes; a store that refuses a write keeps what it held, and the
      [catch] in [saveState] hides this from the controller.  Where a
      property below speaks of the store, it is about what [saveState]
      writes and what [restoreState] reads, not about what the store holds
      after an event. *)

From Stdlib Require Import ZArith QArith Qround Qminmax String Ascii List Bool Lia.
From Stdlib Require Import DecimalString DecimalZ.
From stdpp Require Import gmap strings list.

Open Scope string_scope.
Open Scope Z_scope.

Set Warnings "-clear-no-such-hyp".

(** ** Numbers *)

Inductive num : Type :=
| NaN
| PosInf
| NegInf
| Fin (q : Q).

Definition Qsign (q : Q) : comparison := (q ?= 0)%Q.

Definition num_neg (x : num) : num :=
  match x with
  | NaN => NaN
  | PosInf => NegInf
  | NegInf => PosInf
  | Fin q => Fin (- q)%Q
  end.

(** [x * y] *)
Definition num_mul (x y : num) : num :=
  match x, y with
  | NaN, _ | _, NaN => NaN
  | Fin a, Fin b => Fin (a * b)%Q
  | Fin a, inf | inf, Fin a =>
      match Qsign a with
      | Eq => NaN
      | Gt => inf
      | Lt => num_neg inf
      end
  | PosInf, PosInf | NegInf, NegInf => PosInf
  | PosInf, NegInf | NegInf, PosInf => NegInf
  end.

(** [x / y]; a zero divisor counts as [+0], which is what a width or a
    duration is when it is zero. *)
Definition num_div (x y : num) : num :=
  match x, y with
  | NaN, _ | _, NaN => NaN
  | Fin a, Fin b =>
      match Qsign b with
      | Eq => match Qsign a with Eq => NaN | Gt => PosInf | Lt => NegInf end
      | _ => Fin (a / b)%Q
      end
  | Fin _, _ => Fin 0%Q
  | inf, Fin b =>
      match Qsign b with Lt => num_neg inf | _ => inf end
  | _, _ => NaN
  end.

(** [x < y] as JavaScript evaluates it: false as soon as a [NaN] is involved. *)
Definition num_ltb (x y : num) : bool :=
  match x, y with
  | NaN, _ | _, NaN => false
  | _, NegInf => false
  | NegInf, _ => true
  | PosInf, _ => false
  | _, PosInf => true
  | Fin a, Fin b => match (a ?= b)%Q with Lt => true | _ => false end
  end.

(** [Math.min(x, y)] and [Math.max(x, y)]: [NaN] as soon as an argument is. *)
Definition Math_min (x y : num) : num :=
  match x, y with
  | NaN, _ | _, NaN => NaN
  | _, _ => if num_ltb y x then y else x
  end.

Definition Math_max (x y : num) : num :=
  match x, y with
  | NaN, _ | _, NaN => NaN
  | _, _ => if num_ltb x y then y else x
  end.

(** [Math.floor(r * n)] for a draw [r] of [Math.random()] and a length [n]. *)
Definition floor_scaled (r : Q) (n : Z) : Z := Qfloor (r * inject_Z n).

(** JavaScript's [%] on integers truncates towards zero: the sign of the
    result is that of the dividend. *)
Definition js_rem (a b : Z) : Z := Z.rem a b.

(** ** Strings *)

Definition startsWith (s p : string) : bool := String.prefix p s.

(** [s.split('/')[0]]: the text before the first slash. *)
Fixpoint split_head (s : string) : string :=
  match s with
  | EmptyString => EmptyString
  | String c r => if Ascii.eqb c "/"%char then EmptyString else String c (split_head r)
  end.

(** [a || b] on strings: the empty string is falsy. *)
Definition str_or (a b : string) : string :=
  match a with EmptyString => b | _ => a end.

Definition digit_of (c : ascii) : option Z :=
  let n := Z.of_nat (nat_of_ascii c) in
  if (48 <=? n) && (n <=? 57) then Some (n - 48) else None.

Fixpoint digits_value (acc : Z) (s : string) : option Z :=
  match s with
  | EmptyString => Some acc
  | String c r =>
      match digit_of c with
      | Some d => digits_value (10 * acc + d) r
      | None => None
      end
  end.

(** [Number(s)] on the texts that [saveState] writes: an integer literal,
    with an optional sign, and the empty text.  On these [Some z] is the
    number JavaScript reads, as long as a double holds [z] exactly.  Every
    other text gives [None] here; JavaScript reads some of them as numbers
    all the same (fractions, exponents, radix prefixes, blanks around the
    digits), so outside the fragment [None] says nothing about the code, and
    the properties below use [Number] on the fragment only
    ([indexTextOf]). *)
Definition Number (s : string) : option Z :=
  match s with
  | EmptyString => Some 0
  | String "-"%char (String c r) => option_map Z.opp (digits_value 0 (String c r))
  | String "+"%char (String c r) => digits_value 0 (String c r)
  | _ => digits_value 0 s
  end.

(** [String(z)] for an integer. *)
Definition String_of (z : Z) : string := NilZero.string_of_int (Z.to_int z).

(** The integers a double holds exactly and prints in full. *)
Definition safeInteger (z : Z) : Prop := - 2 ^ 53 <= z <= 2 ^ 53.

(** [text] is the decimal text of the safe integer [z], which is what
    [saveState] leaves under [ump_index]. *)
Definition indexTextOf (text : string) (z : Z) : Prop :=
  safeInteger z /\ text = String_of z.

(** ** File names as markup

    [updatePlaylist] builds the entry of item [i] by assigning
    [<span>i+1. name</span><button class=small-btn data-idx=i>Play</button>]
    to [innerHTML], with the name as it is, and hangs the click listener on
    the first button of what the parser makes of this text. *)

(** A character the parser reads as itself in text: not [<], which starts
    a tag, not [&], which starts a character reference, and neither NUL nor
    a carriage return, which the parser drops or replaces. *)
Definition plainChar (c : ascii) : bool :=
  negb (Ascii.eqb c "<"%char || Ascii.eqb c "&"%char ||
        Ascii.eqb c "000"%char || Ascii.eqb c "013"%char).

(** A name that is text and nothing else: the entry shows it as it is, and
    the only button of the entry is the Play button. *)
Fixpoint plainName (s : string) : bool :=
  match s with
  | EmptyString => true
  | String c r => plainChar c && plainName r
  end.

(** The text before the first [<] and, when there is one, the text after
    it. *)
Fixpoint cutAtTag (s : string) : string * option string :=
  match s with
  | EmptyString => (EmptyString, None)
  | String c r =>
      if Ascii.eqb c "<"%char then (EmptyString, Some r)
      else let (before, rest) := cutAtTag r in (String c before, rest)
  end.

(** [s] without its prefix [p]. *)
Fixpoint dropPrefix (p s : string) : option string :=
  match p, s with
  | EmptyString, _ => Some s
  | String a p', String b s' => if Ascii.eqb a b then dropPrefix p' s' else None
  | String _ _, EmptyString => None
  end.

(** The digits [s] starts with, and what follows them. *)
Fixpoint leadingDigits (s : string) : string * string :=
  match s with
  | EmptyString => (EmptyString, EmptyString)
  | String c r =>
      match digit_of c with
      | Some _ => let (ds, rest) := leadingDigits r in (String c ds, rest)
      | None => (EmptyString, s)
      end
  end.

(** A name of the form [text<button data-idx=digits>text].  The parser
    makes a button of the tag, inside the span and before the Play button,
    so it is this button that [querySelector('button')] finds and that gets
    the listener; a click on it hands [Number(digits)] to the handler.  The
    digits are at most 15, which a double holds exactly. *)
Definition injectedIdx (name : string) : option Z :=
  match cutAtTag name with
  | (before, Some rest) =>
      match dropPrefix "button data-idx=" rest with
      | Some rest =>
          match leadingDigits rest with
          | (String d ds, String ">"%char label) =>
              if plainName before && plainName label &&
                 (String.length (String d ds) <=? 15)%nat
              then digits_value 0 (String d ds)
              else None
          | _ => None
          end
      | None => None
      end
  | (_, None) => None
  end.

(** ** Files *)

Module File.
Record t : Type := { name : string; type : string; size : Z }.
End File.

(** The predicate of the [filter] in [handleFiles]. *)
Definition isMediaFile (file : File.t) : bool :=
  startsWith (File.type file) "video/" ||
  startsWith (File.type file) "audio/" ||
  startsWith (File.type file) "image/".

(** ** Media elements *)

Inductive Tag : Type := IMG | AUDIO | VIDEO.

(** An object URL is named by the order in which [URL.createObjectURL]
    handed it out: every call returns a URL that was never returned before. *)
Definition Url : Type := nat.

Record Element : Type := {
  tagName : Tag;
  src : Url;
  currentTime : Q;
  duration : num;
  paused : bool;
  muted : bool;
  volume : Q
}.

(** Assignments to one field of an element. *)

Definition el_set_currentTime v (el : Element) : Element :=
  {| tagName := tagName el; src := src el; currentTime := v; duration := duration el; paused := paused el; muted := muted el; volume := volume el |}.
Definition el_set_duration v (el : Element) : Element :=
  {| tagName := tagName el; src := src el; currentTime := currentTime el; duration := v; paused := paused el; muted := muted el; volume := volume el |}.
Definition el_set_paused v (el : Element) : Element :=
  {| tagName := tagName el; src := src el; currentTime := currentTime el; duration := duration el; paused := v; muted := muted el; volume := volume el |}.
Definition el_set_muted v (el : Element) : Element :=
  {| tagName := tagName el; src := src el; currentTime := currentTime el; duration := duration el; paused := paused el; muted := v; volume := volume el |}.
Definition el_set_volume v (el : Element) : Element :=
  {| tagName := tagName el; src := src el; currentTime := currentTime el; duration := duration el; paused := paused el; muted := muted el; volume := v |}.

(** [document.createElement(tag)] with its [src] set: a fresh element is
    paused at position 0 and its duration is unknown until the metadata
    arrive. *)
Definition createElement (tag : Tag) (url : Url) : Element :=
  {| tagName := tag; src := url; currentTime := 0%Q; duration := NaN;
     paused := true; muted := false; volume := 1%Q |}.

(** [tagName === 'AUDIO' || tagName === 'VIDEO'] *)
Definition isAudioOrVideo (el : Element) : bool :=
  match tagName el with IMG => false | _ => true end.

Definition el_pause (el : Element) : Element := el_set_paused true el.

(** [el.play()] on the run in which the platform lets the element play:
    [paused] becomes false.  When the platform refuses the request it
    rejects the promise, which is the event [PlayRejected], and leaves
    [paused] as it was; the value of [paused] on that run is not followed
    here. *)
Definition el_play (el : Element) : Element := el_set_paused false el.

(** ** The persistent store

    [localStorage] holds text under two keys.  The index is kept as its
    text.  The playlist metadata are kept as what [JSON.parse] makes of the
    stored text: it throws, or it yields an array of [{name, type, size}]
    records, or some other value. *)

Record Meta : Type := { meta_name : string; meta_type : string; meta_size : Z }.

Inductive MetaText : Type :=
| MetaBlank                       (* the empty text *)
| MetaMalformed                   (* JSON.parse throws *)
| MetaArray (items : list Meta)   (* parses to this array *)
| MetaOther.                      (* parses to something that is no array *)

Record Storage : Type := {
  ump_playlist_meta : option MetaText;
  ump_index : option string
}.

Definition emptyStorage : Storage :=
  {| ump_playlist_meta := None; ump_index := None |}.

(** ** The state of the page *)

(** What [playlistEl] shows. *)
Inductive PlaylistView : Type :=
| ViewEmpty                                  (* innerHTML = '', not shown *)
| ViewNotice                                 (* "Previously saved playlist ..." *)
| ViewItems (names : list string) (active : Z).
                                             (* one entry built from each name *)

Inductive Glyph : Type := GlyphPlay | GlyphPause.

Record State : Type := {
  (* fields of the MediaPlayer object *)
  currentMedia : option Element;
  playlist : list File.t;
  currentIndex : Z;
  isPlaying : bool;
  loop : bool;
  shuffle : bool;
  objectUrls : gset Url;
  thumbDragging : bool;
  (* the document *)
  errorMessage : option string;
  dropZoneHidden : bool;
  playlistEl : PlaylistView;
  progressFill : num;
  volumeSlider : Q;
  playBtn : Glyph;
  (* the platform: object URLs that are valid, and how many were made *)
  blobUrls : gset Url;
  urlCounter : nat;
  localStorage : Storage
}.

(** Assignments to one field of the state. *)

Definition set_currentMedia v (s : State) : State :=
  {| currentMedia := v; playlist := playlist s;
     currentIndex := currentIndex s; isPlaying := isPlaying s;
     loop := loop s; shuffle := shuffle s; objectUrls := objectUrls s;
     thumbDragging := thumbDragging s; errorMessage := errorMessage s;
     dropZoneHidden := dropZoneHidden s; playlistEl := playlistEl s;
     progressFill := progressFill s; volumeSlider := volumeSlider s;
     playBtn := playBtn s; blobUrls := blobUrls s;
     urlCounter := urlCounter s; localStorage := localStorage s |}.
Definition set_playlist v (s : State) : State :=
  {| currentMedia := currentMedia s; playlist := v;
     currentIndex := currentIndex s; isPlaying := isPlaying s;
     loop := loop s; shuffle := shuffle s; objectUrls := objectUrls s;
     thumbDragging := thumbDragging s; errorMessage := errorMessage s;
     dropZoneHidden := dropZoneHidden s; playlistEl := playlistEl s;
     progressFill := progressFill s; volumeSlider := volumeSlider s;
     playBtn := playBtn s; blobUrls := blobUrls s;
     urlCounter := urlCounter s; localStorage := localStorage s |}.
Definition set_currentIndex v (s : State) : State :=
  {| currentMedia := currentMedia s; playlist := playlist s;
     currentIndex := v; isPlaying := isPlaying s; loop := loop s;
     shuffle := shuffle s; objectUrls := objectUrls s;
     thumbDragging := thumbDragging s; errorMessage := errorMessage s;
     dropZoneHidden := dropZoneHidden s; playlistEl := playlistEl s;
     progressFill := progressFill s; volumeSlider := volumeSlider s;
     playBtn := playBtn s; blobUrls := blobUrls s;
     urlCounter := urlCounter s; localStorage := localStorage s |}.
Definition set_isPlaying v (s : State) : State :=
  {| currentMedia := currentMedia s; playlist := playlist s;
     currentIndex := currentIndex s; isPlaying := v; loop := loop s;
     shuffle := shuffle s; objectUrls := objectUrls s;
     thumbDragging := thumbDragging s; errorMessage := errorMessage s;
     dropZoneHidden := dropZoneHidden s; playlistEl := playlistEl s;
     progressFill := progressFill s; volumeSlider := volumeSlider s;
     playBtn := playBtn s; blobUrls := blobUrls s;
     urlCounter := urlCounter s; localStorage := localStorage s |}.
Definition set_loop v (s : State) : State :=
  {| currentMedia := currentMedia s; playlist := playlist s;
     currentIndex := currentIndex s; isPlaying := isPlaying s; loop := v;
     shuffle := shuffle s; objectUrls := objectUrls s;
     thumbDragging := thumbDragging s; errorMessage := errorMessage s;
     dropZoneHidden := dropZoneHidden s; playlistEl := playlistEl s;
     progressFill := progressFill s; volumeSlider := volumeSlider s;
     playBtn := playBtn s; blobUrls := blobUrls s;
     urlCounter := urlCounter s; localStorage := localStorage s |}.
Definition set_shuffle v (s : State) : State :=
  {| currentMedia := currentMedia s; playlist := playlist s;
     currentIndex := currentIndex s; isPlaying := isPlaying s;
     loop := loop s; shuffle := v; objectUrls := objectUrls s;
     thumbDragging := thumbDragging s; errorMessage := errorMessage s;
     dropZoneHidden := dropZoneHidden s; playlistEl := playlistEl s;
     progressFill := progressFill s; volumeSlider := volumeSlider s;
     playBtn := playBtn s; blobUrls := blobUrls s;
     urlCounter := urlCounter s; localStorage := localStorage s |}.
Definition set_objectUrls v (s : State) : State :=
  {| currentMedia := currentMedia s; playlist := playlist s;
     currentIndex := currentIndex s; isPlaying := isPlaying s;
     loop := loop s; shuffle := shuffle s; objectUrls := v;
     thumbDragging := thumbDragging s; errorMessage := errorMessage s;
     dropZoneHidden := dropZoneHidden s; playlistEl := playlistEl s;
     progressFill := progressFill s; volumeSlider := volumeSlider s;
     playBtn := playBtn s; blobUrls := blobUrls s;
     urlCounter := urlCounter s; localStorage := localStorage s |}.
Definition set_thumbDragging v (s : State) : State :=
  {| currentMedia := currentMedia s; playlist := playlist s;
     currentIndex := currentIndex s; isPlaying := isPlaying s;
     loop := loop s; shuffle := shuffle s; objectUrls := objectUrls s;
     thumbDragging := v; errorMessage := errorMessage s;
     dropZoneHidden := dropZoneHidden s; playlistEl := playlistEl s;
     progressFill := progressFill s; volumeSlider := volumeSlider s;
     playBtn := playBtn s; blobUrls := blobUrls s;
     urlCounter := urlCounter s; localStorage := localStorage s |}.
Definition set_errorMessage v (s : State) : State :=
  {| currentMedia := currentMedia s; playlist := playlist s;
     currentIndex := currentIndex s; isPlaying := isPlaying s;
     loop := loop s; shuffle := shuffle s; objectUrls := objectUrls s;
     thumbDragging := thumbDragging s; errorMessage := v;
     dropZoneHidden := dropZoneHidden s; playlistEl := playlistEl s;
     progressFill := progressFill s; volumeSlider := volumeSlider s;
     playBtn := playBtn s; blobUrls := blobUrls s;
     urlCounter := urlCounter s; localStorage := localStorage s |}.
Definition set_dropZoneHidden v (s : State) : State :=
  {| currentMedia := currentMedia s; playlist := playlist s;
     currentIndex := currentIndex s; isPlaying := isPlaying s;
     loop := loop s; shuffle := shuffle s; objectUrls := objectUrls s;
     thumbDragging := thumbDragging s; errorMessage := errorMessage s;
     dropZoneHidden := v; playlistEl := playlistEl s;
     progressFill := progressFill s; volumeSlider := volumeSlider s;
     playBtn := playBtn s; blobUrls := blobUrls s;
     urlCounter := urlCounter s; localStorage := localStorage s |}.
Definition set_playlistEl v (s : State) : State :=
  {| currentMedia := currentMedia s; playlist := playlist s;
     currentIndex := currentIndex s; isPlaying := isPlaying s;
     loop := loop s; shuffle := shuffle s; objectUrls := objectUrls s;
     thumbDragging := thumbDragging s; errorMessage := errorMessage s;
     dropZoneHidden := dropZoneHidden s; playlistEl := v;
     progressFill := progressFill s; volumeSlider := volumeSlider s;
     playBtn := playBtn s; blobUrls := blobUrls s;
     urlCounter := urlCounter s; localStorage := localStorage s |}.
Definition set_progressFill v (s : State) : State :=
  {| currentMedia := currentMedia s; playlist := playlist s;
     currentIndex := currentIndex s; isPlaying := isPlaying s;
     loop := loop s; shuffle := shuffle s; objectUrls := objectUrls s;
     thumbDragging := thumbDragging s; errorMessage := errorMessage s;
     dropZoneHidden := dropZoneHidden s; playlistEl := playlistEl s;
     progressFill := v; volumeSlider := volumeSlider s; playBtn := playBtn s;
     blobUrls := blobUrls s; urlCounter := urlCounter s;
     localStorage := localStorage s |}.
Definition set_volumeSlider v (s : State) : State :=
  {| currentMedia := currentMedia s; playlist := playlist s;
     currentIndex := currentIndex s; isPlaying := isPlaying s;
     loop := loop s; shuffle := shuffle s; objectUrls := objectUrls s;
     thumbDragging := thumbDragging s; errorMessage := errorMessage s;
     dropZoneHidden := dropZoneHidden s; playlistEl := playlistEl s;
     progressFill := progressFill s; volumeSlider := v; playBtn := playBtn s;
     blobUrls := blobUrls s; urlCounter := urlCounter s;
     localStorage := localStorage s |}.
Definition set_playBtn v (s : State) : State :=
  {| currentMedia := currentMedia s; playlist := playlist s;
     currentIndex := currentIndex s; isPlaying := isPlaying s;
     loop := loop s; shuffle := shuffle s; objectUrls := objectUrls s;
     thumbDragging := thumbDragging s; errorMessage := errorMessage s;
     dropZoneHidden := dropZoneHidden s; playlistEl := playlistEl s;
     progressFill := progressFill s; volumeSlider := volumeSlider s;
     playBtn := v; blobUrls := blobUrls s; urlCounter := urlCounter s;
     localStorage := localStorage s |}.
Definition set_blobUrls v (s : State) : State :=
  {| currentMedia := currentMedia s; playlist := playlist s;
     currentIndex := currentIndex s; isPlaying := isPlaying s;
     loop := loop s; shuffle := shuffle s; objectUrls := objectUrls s;
     thumbDragging := thumbDragging s; errorMessage := errorMessage s;
     dropZoneHidden := dropZoneHidden s; playlistEl := playlistEl s;
     progressFill := progressFill s; volumeSlider := volumeSlider s;
     playBtn := playBtn s; blobUrls := v; urlCounter := urlCounter s;
     localStorage := localStorage s |}.
Definition set_urlCounter v (s : State) : State :=
  {| currentMedia := currentMedia s; playlist := playlist s;
     currentIndex := currentIndex s; isPlaying := isPlaying s;
     loop := loop s; shuffle := shuffle s; objectUrls := objectUrls s;
     thumbDragging := thumbDragging s; errorMessage := errorMessage s;
     dropZoneHidden := dropZoneHidden s; playlistEl := playlistEl s;
     progressFill := progressFill s; volumeSlider := volumeSlider s;
     playBtn := playBtn s; blobUrls := blobUrls s; urlCounter := v;
     localStorage := localStorage s |}.
Definition set_localStorage v (s : State) : State :=
  {| currentMedia := currentMedia s; playlist := playlist s;
     currentIndex := currentIndex s; isPlaying := isPlaying s;
     loop := loop s; shuffle := shuffle s; objectUrls := objectUrls s;
     thumbDragging := thumbDragging s; errorMessage := errorMessage s;
     dropZoneHidden := dropZoneHidden s; playlistEl := playlistEl s;
     progressFill := progressFill s; volumeSlider := volumeSlider s;
     playBtn := playBtn s; blobUrls := blobUrls s;
     urlCounter := urlCounter s; localStorage := v |}.

(** ** Handlers and their outcomes *)

Inductive Outcome : Type :=
| Done (s : State)
| Thrown (s : State).

Definition state_of (o : Outcome) : State :=
  match o with Done s | Thrown s => s end.

Definition Handler : Type := State -> Outcome.

Definition andThen (h k : Handler) : Handler :=
  fun s => match h s with Done s' => k s' | Thrown s' => Thrown s' end.

Notation "h >> k" := (andThen h k) (at level 62, right associativity).

(** A statement that cannot throw. *)
Definition run (f : State -> State) : Handler := fun s => Done (f s).

(** [try { h } catch(e) {}] *)
Definition tryCatch (h : Handler) : Handler := fun s => Done (state_of (h s)).

(** ** Platform primitives *)

(** [URL.createObjectURL(file)]: the URL it returns is [urlCounter s]. *)
Definition createObjectURL (s : State) : State :=
  set_urlCounter (S (urlCounter s)) (set_blobUrls ({[urlCounter s]} ∪ blobUrls s) s).

Definition revokeObjectURL (u : Url) (s : State) : State :=
  set_blobUrls (blobUrls s ∖ {[u]}) s.

(** [el.currentTime = v]: the attribute is a restricted double, so a value
    that is not finite raises a TypeError and nothing is stored. *)
Definition assignCurrentTime (v : num) : Handler := fun s =>
  match v, currentMedia s with
  | Fin q, Some el => Done (set_currentMedia (Some (el_set_currentTime q el)) s)
  | _, _ => Thrown s
  end.

(** [el.volume = v]: outside the range 0..1 the platform raises an
    IndexSizeError and nothing is stored. *)
Definition volumeInRange (v : Q) : bool := Qle_bool 0 v && Qle_bool v 1.

(** The assignment of the volume in [loadMedia] goes through for an element
    with tag [tag]: an image has none, for audio and video the slider gives
    a volume the platform accepts. *)
Definition volumeAccepted (tag : Tag) (s : State) : Prop :=
  tag = IMG \/ volumeInRange (volumeSlider s / 100) = true.

(** [array[i]] for a JavaScript number [i]: [undefined] off the array. *)
Definition item {A : Type} (l : list A) (i : Z) : option A :=
  if i <? 0 then None else l !! Z.to_nat i.

(** ** The methods of [MediaPlayer] *)

Definition clearError (s : State) : State :=
  set_dropZoneHidden false (set_errorMessage None s).

Definition showError (message : string) (s : State) : State :=
  set_errorMessage (Some message) (clearError s).

(** The listing is kept as the names its entries are built from; what an
    entry then shows and which of its buttons carries the listener is read
    off the name ([plainName], [injectedIdx]). *)
Definition updatePlaylist (s : State) : State :=
  if (length (playlist s) <=? 1)%nat then set_playlistEl ViewEmpty s
  else set_playlistEl (ViewItems (map File.name (playlist s)) (currentIndex s)) s.

Definition metaOf (f : File.t) : Meta :=
  {| meta_name := File.name f; meta_type := File.type f; meta_size := File.size f |}.

(** [saveState] on the run in which the store accepts both [setItem]
    calls.  When the store refuses one, the [catch] swallows the exception:
    the store then keeps what it had (for the key refused and the one after
    it), and the controller's own fields are the same as here. *)
Definition saveState (s : State) : State :=
  set_localStorage
    {| ump_playlist_meta := Some (MetaArray (map metaOf (playlist s)));
       ump_index := Some (String_of (currentIndex s)) |} s.

(** The first component of [file.type], or ['unknown']. *)
Definition majorType (file : File.t) : string :=
  str_or (split_head (File.type file)) "unknown".

Definition tagOfType (type : string) : option Tag :=
  if String.eqb type "image" then Some IMG
  else if String.eqb type "audio" then Some AUDIO
  else if String.eqb type "video" then Some VIDEO
  else None.

(** [loadMedia(file)]; [file] is [None] when the caller indexed the
    playlist off its end and passed [undefined]. *)
Definition loadMedia (file : option File.t) : Handler := fun s =>
  let s := clearError s in
  (* stop previous *)
  let s := match currentMedia s with
           | Some el => if isAudioOrVideo el
                        then set_currentMedia (Some (el_pause el)) s else s
           | None => s
           end in
  (* remove element *)
  let s := set_currentMedia None s in
  match file with
  | None => Thrown s
  | Some f =>
      match tagOfType (majorType f) with
      | None => Done (showError "Unsupported file type" s)
      | Some tag =>
          let url := urlCounter s in
          let s := createObjectURL s in
          let el := createElement tag url in
          let s := set_objectUrls ({[url]} ∪ objectUrls s) s in
          let v := (volumeSlider s / 100)%Q in
          match tag with
          | IMG =>
              Done (updatePlaylist
                      (set_dropZoneHidden true (set_currentMedia (Some el) s)))
          | _ =>
              if volumeInRange v then
                Done (updatePlaylist
                        (set_dropZoneHidden true
                           (set_currentMedia (Some (el_set_volume v el)) s)))
              else Thrown s
          end
      end
  end.

Definition handleFiles (files : list File.t) : Handler := fun s =>
  let mediaFiles := List.filter isMediaFile files in
  if (length mediaFiles =? 0)%nat
  then Done (showError "No supported media files found" s)
  else
    (* append to playlist rather than replace *)
    let s := set_playlist (playlist s ++ mediaFiles) s in
    if (length (playlist s) =? 0)%nat then Done s
    else
      ((match currentMedia s with
        | None => run (set_currentIndex 0) >>
                  (fun s => loadMedia (item (playlist s) 0) s)
        | Some _ => run id
        end) >> run updatePlaylist >> run saveState) s.

(** [onMediaLoaded] only refreshes the time text. *)
Definition onMediaLoaded : Handler := run id.

(** [progressFill.style.width = v + '%']: the style takes a percentage
    that is a number and not negative; for any other text (['NaN%'],
    ['Infinity%'], a negative percentage) the assignment is ignored and the
    width stays what it was. *)
Definition assignWidth (v : num) (s : State) : State :=
  match v with
  | Fin q => if Qle_bool 0 q then set_progressFill v s else s
  | _ => s
  end.

Definition updateProgress (s : State) : State :=
  match currentMedia s with
  | None => s
  | Some el =>
      match tagName el with
      | IMG => s
      | _ => assignWidth
               (num_mul (num_div (Fin (currentTime el)) (duration el)) (Fin 100)) s
      end
  end.

Definition handleMediaError (code : option Z) : Handler :=
  run (showError
         match code with
         | Some 1 => "Media playback was aborted"
         | Some 2 => "Network error while loading media"
         | Some 3 => "Media decoding failed"
         | Some 4 => "Media format not supported"
         | _ => "Unable to play this media file"
         end).

Definition togglePlay : Handler := fun s =>
  match currentMedia s with
  | None => Done s
  | Some el =>
      match tagName el with
      | IMG => Done s
      | _ =>
          let s := if isPlaying s
                   then set_playBtn GlyphPlay
                          (set_currentMedia (Some (el_pause el)) s)
                   else set_playBtn GlyphPause
                          (set_currentMedia (Some (el_play el)) s) in
          Done (set_isPlaying (negb (isPlaying s)) s)
      end
  end.

(** The [catch] callback that [togglePlay] hangs on the promise of
    [play()]; it runs when the platform rejects the request. *)
Definition onPlayRejected : Handler :=
  run (showError "Unable to play media (autoplay blocked?)").

Definition playPrevious (random : Q) : Handler := fun s =>
  if (length (playlist s) =? 0)%nat then Done s
  else
    let n := Z.of_nat (length (playlist s)) in
    let s := if shuffle s
             then set_currentIndex (floor_scaled random n) s
             else set_currentIndex (js_rem (currentIndex s - 1 + n) n) s in
    (loadMedia (item (playlist s) (currentIndex s)) >> run saveState) s.

Definition playNext (random : Q) : Handler := fun s =>
  if (length (playlist s) =? 0)%nat then Done s
  else
    let n := Z.of_nat (length (playlist s)) in
    let s := if shuffle s
             then set_currentIndex (floor_scaled random n) s
             else set_currentIndex (js_rem (currentIndex s + 1) n) s in
    (loadMedia (item (playlist s) (currentIndex s)) >> run saveState) s.

Definition onMediaEnded (random : Q) : Handler := fun s =>
  if loop s then
    match currentMedia s with
    | None => Thrown s
    | Some el =>
        match tagName el with
        | IMG => Thrown s        (* an <img> has no play() *)
        | _ => (assignCurrentTime (Fin 0) >>
                run (fun s => set_currentMedia (option_map el_play (currentMedia s)) s)) s
        end
    end
  else playNext random s.

Definition toggleMute : Handler := fun s =>
  match currentMedia s with
  | None => Done s
  | Some el =>
      match tagName el with
      | IMG => Done s
      | _ => Done (set_currentMedia (Some (el_set_muted (negb (muted el)) el)) s)
      end
  end.

Definition setVolume (value : Q) : Handler := fun s =>
  match currentMedia s with
  | None => Done s
  | Some el =>
      match tagName el with
      | IMG => Done s
      | _ => let v := (value / 100)%Q in
             if volumeInRange v
             then Done (set_currentMedia (Some (el_set_volume v el)) s)
             else Thrown s
      end
  end.

(** What a pointer event and [progressBar.getBoundingClientRect()] give. *)
Record Pointer : Type := { clientX : Q; rect_left : Q; rect_width : Q }.

(** [(clientX - rect.left) / rect.width] *)
Definition pointerFraction (e : Pointer) : num :=
  num_div (Fin (clientX e - rect_left e)) (Fin (rect_width e)).

(** [Math.max(0, Math.min(1, x))] *)
Definition clamp01 (x : num) : num := Math_max (Fin 0) (Math_min (Fin 1) x).

Definition seek (e : Pointer) : Handler := fun s =>
  match currentMedia s with
  | None => Done s
  | Some el =>
      match tagName el with
      | IMG => Done s
      | _ =>
          let percent := clamp01 (pointerFraction e) in
          (assignCurrentTime (num_mul percent (duration el)) >>
           run updateProgress) s
      end
  end.

Inductive Key : Type :=
| KeySpace | ArrowLeft | ArrowRight | ArrowUp | ArrowDown | KeyOther.

Definition handleKeyboard (key : Key) : Handler := fun s =>
  match currentMedia s with
  | None => Done s
  | Some el =>
      match tagName el with
      | IMG => Done s
      | _ =>
          match key with
          | KeySpace => togglePlay s
          | ArrowLeft =>
              assignCurrentTime
                (Math_max (Fin 0) (Fin (currentTime el - 5))) s
          | ArrowRight =>
              assignCurrentTime
                (Math_min (duration el) (Fin (currentTime el + 5))) s
          | ArrowUp =>
              (run (fun s => set_volumeSlider (Qmin 100 (volumeSlider s + 10)) s) >>
               (fun s => setVolume (volumeSlider s) s)) s
          | ArrowDown =>
              (run (fun s => set_volumeSlider (Qmax 0 (volumeSlider s - 10)) s) >>
               (fun s => setVolume (volumeSlider s) s)) s
          | KeyOther => Done s
          end
      end
  end.

Definition toggleLoop : Handler := run (fun s => set_loop (negb (loop s)) s).
Definition toggleShuffle : Handler :=
  run (fun s => set_shuffle (negb (shuffle s)) s).

(** Thumb dragging handlers *)
Definition startThumbDrag : Handler := run (set_thumbDragging true).

Definition onThumbMove (e : Pointer) : Handler := fun s =>
  if negb (thumbDragging s) then Done s
  else
    match currentMedia s with
    | None => Done s
    | Some el =>
        match tagName el with
        | IMG => Done s
        | _ =>
            let pct := clamp01 (pointerFraction e) in
            Done (assignWidth (num_mul pct (Fin 100)) s)
        end
    end.

Definition endThumbDrag (e : Pointer) : Handler := fun s =>
  if negb (thumbDragging s) then Done s
  else
    let s := set_thumbDragging false s in
    match currentMedia s with
    | None => Done s
    | Some el =>
        match tagName el with
        | IMG => Done s
        | _ =>
            let pct := clamp01 (pointerFraction e) in
            assignCurrentTime (num_mul pct (duration el)) s
        end
    end.

(** [Array.isArray(meta) && meta.length > 0] after
    [JSON.parse(getItem(...) || 'null')]; [None] when the parse throws. *)
Definition savedPlaylistFound (stored : option MetaText) : option bool :=
  match stored with
  | None | Some MetaBlank => Some false        (* 'null' is parsed *)
  | Some MetaMalformed => None
  | Some (MetaArray items) => Some (0 <? length items)%nat
  | Some MetaOther => Some false
  end.

Definition restoreState : Handler :=
  tryCatch (fun s =>
    match savedPlaylistFound (ump_playlist_meta (localStorage s)) with
    | None => Thrown s
    | Some found =>
        let idx := Number (str_or (default "" (ump_index (localStorage s))) "0") in
        let s := if found then set_playlistEl ViewNotice s else s in
        Done (set_currentIndex (match idx with Some z => z | None => 0 end) s)
    end).

Definition cleanupUrls : Handler :=
  run (fun s =>
         set_objectUrls ∅
           (foldr revokeObjectURL s (elements (objectUrls s)))).

(** The click listener of a playlist entry; [i] is what it reads from
    [Number(e.target.dataset.idx)]. *)
Definition playlistItemClick (i : Z) : Handler :=
  run (set_currentIndex i) >>
  (fun s => loadMedia (item (playlist s) i) s) >>
  run saveState.

(** [new MediaPlayer()] on a page whose store is [store] and whose volume
    slider stands at [slider]. *)
Definition blank (store : Storage) (slider : Q) : State :=
  {| currentMedia := None; playlist := []; currentIndex := 0;
     isPlaying := false; loop := false; shuffle := false; objectUrls := ∅;
     thumbDragging := false;
     errorMessage := None; dropZoneHidden := false; playlistEl := ViewEmpty;
     progressFill := Fin 0; volumeSlider := slider; playBtn := GlyphPlay;
     blobUrls := ∅; urlCounter := 0; localStorage := store |}.

Definition constructor (store : Storage) (slider : Q) : State :=
  state_of (restoreState (blank store slider)).

(** ** Events

    What [bindEvents], [loadMedia], [showError] and [updatePlaylist]
    register, with what each event carries.  The media events are those of
    the element in [currentMedia].  Left out are the events whose handlers
    write no field kept here: the drag-over marks of the drop zone and the
    clicks that only open the file dialog. *)

Inductive Event : Type :=
| FilesChosen (files : list File.t)        (* change on the input, or drop *)
| PlayClick
| PrevClick (random : Q)
| NextClick (random : Q)
| MuteClick
| VolumeInput (value : Q)
| ProgressClick (e : Pointer)
| LoopClick
| ShuffleClick
| ThumbDown                                (* mousedown / touchstart *)
| PointerMove (e : Pointer)                (* mousemove / touchmove *)
| PointerUp (e : Pointer)                  (* mouseup / touchend *)
| KeyDown (key : Key)
| PlaylistButtonClick (idx : nat)           (* on the button that carries the
                                              listener of entry idx *)
| RetryClick
| LoadedMetadata (d : num)
| TimeUpdate (t : Q)
| Ended (random : Q)
| MediaError (code : option Z)
| PlayRejected
| ThemeClick
| BeforeUnload.

(** The number of entries in the playlist listing. *)
Definition buttons (v : PlaylistView) : nat :=
  match v with ViewItems names _ => length names | _ => 0%nat end.

(** What a click on the button that carries the listener of entry [i] hands
    to the handler as [Number(e.target.dataset.idx)]: the index of the entry
    when its name is plain text (the button is the Play button), the
    injected number when the name brings a button of its own.  For a name
    with other markup no click is delivered. *)
Definition clickedIdx (v : PlaylistView) (i : nat) : option Z :=
  match v with
  | ViewItems names _ =>
      match names !! i with
      | Some n => if plainName n then Some (Z.of_nat i) else injectedIdx n
      | None => None
      end
  | _ => None
  end.

(** The platform writes a field of the current audio or video element
    before it fires the event that tells about it. *)
Definition platformSets (f : Element -> Element) (s : State) : State :=
  match currentMedia s with
  | Some el => if isAudioOrVideo el then set_currentMedia (Some (f el)) s else s
  | None => s
  end.

Definition dispatch (ev : Event) : Handler :=
  match ev with
  | FilesChosen files => handleFiles files
  | PlayClick => togglePlay
  | PrevClick r => playPrevious r
  | NextClick r => playNext r
  | MuteClick => toggleMute
  | VolumeInput v => run (set_volumeSlider v) >> setVolume v
  | ProgressClick e => seek e
  | LoopClick => toggleLoop
  | ShuffleClick => toggleShuffle
  | ThumbDown => startThumbDrag
  | PointerMove e => onThumbMove e
  | PointerUp e => endThumbDrag e
  | KeyDown k => handleKeyboard k
  | PlaylistButtonClick i =>
      fun s => match clickedIdx (playlistEl s) i with
               | Some idx => playlistItemClick idx s
               | None => Done s
               end
  | RetryClick =>
      fun s => match errorMessage s with
               | Some _ => Done (clearError s)
               | None => Done s
               end
  | LoadedMetadata d => run (platformSets (el_set_duration d)) >> onMediaLoaded
  | TimeUpdate t => run (platformSets (el_set_currentTime t)) >> run updateProgress
  | Ended r => onMediaEnded r
  | MediaError code => handleMediaError code
  | PlayRejected => onPlayRejected
  | ThemeClick => fun s => Thrown s      (* this.toggleTheme is not defined *)
  | BeforeUnload => cleanupUrls
  end.

(** One turn of the event loop: the handler runs to its end or to its
    first uncaught exception. *)
Definition step (s : State) (ev : Event) : State := state_of (dispatch ev s).

(** What the environment guarantees about what it hands in:
    [Math.random()] lies in [0, 1). *)
Definition unitDraw (r : Q) : Prop := (0 <= r)%Q /\ (r < 1)%Q.

Definition wellFormed (ev : Event) : Prop :=
  match ev with
  | PrevClick r | NextClick r | Ended r => unitDraw r
  | _ => True
  end.

Inductive reachable : State -> Prop :=
| reach_init store slider : reachable (constructor store slider)
| reach_step s ev : reachable s -> wellFormed ev -> reachable (step s ev).

(** The events whose handlers neither load an item nor revoke a URL. *)
Definition quiet (ev : Event) : bool :=
  match ev with
  | FilesChosen _ | PrevClick _ | NextClick _ | PlaylistButtonClick _
  | Ended _ | BeforeUnload => false
  | _ => true
  end.

(** ** Invariants *)

(** The index names an item whenever there is one. *)
Definition indexInRange (s : State) : Prop :=
  playlist s <> [] -> 0 <= currentIndex s < Z.of_nat (length (playlist s)).

(** An element is only ever made for an item of the playlist. *)
Definition sessionNeedsItems (s : State) : Prop :=
  currentMedia s <> None -> playlist s <> [].

(** The listing never shows an entry past the end of the playlist. *)
Definition buttonsListed (s : State) : Prop :=
  (buttons (playlistEl s) <= length (playlist s))%nat.

(** Every URL that is valid or tracked was handed out before. *)
Definition urlsIssued (s : State) : Prop :=
  forall u : Url, u ∈ blobUrls s ∪ objectUrls s -> (u < urlCounter s)%nat.

Record Inv (s : State) : Prop := {
  inv_index : indexInRange s;
  inv_session : sessionNeedsItems s;
  inv_buttons : buttonsListed s;
  inv_urls : urlsIssued s
}.

(** [s'] differs from [s] at most in the fields of the current element and
    in what the page shows beside the listing. *)
Record sameCore (s s' : State) : Prop := {
  core_playlist : playlist s' = playlist s;
  core_index : currentIndex s' = currentIndex s;
  core_media : currentMedia s' <> None -> currentMedia s <> None;
  core_view : playlistEl s' = playlistEl s;
  core_tracked : objectUrls s' = objectUrls s;
  core_valid : blobUrls s' = blobUrls s;
  core_counter : urlCounter s' = urlCounter s
}.

(** The time of the current element, if there is one. *)
Definition position (s : State) : option Q := option_map currentTime (currentMedia s).

(** ** A sample session *)

Definition song (n : string) : File.t :=
  {| File.name := n; File.type := "audio/mpeg"; File.size := 4096 |}.

Definition notes : File.t :=
  {| File.name := "notes.txt"; File.type := "text/plain"; File.size := 12 |}.

Definition cover : File.t :=
  {| File.name := "cover.png"; File.type := "image/png"; File.size := 2048 |}.

(** A first visit: nothing stored, the slider at its top. *)
Definition fresh : State := constructor emptyStorage 100.

(** A later visit: the store remembers a playlist left at its fourth item. *)
Definition remembered : Storage :=
  {| ump_playlist_meta := Some (MetaArray [metaOf (song "a"); metaOf (song "b");
                                           metaOf (song "c"); metaOf (song "d")]);
     ump_index := Some "3" |}.

Definition revisit : State := constructor remembered 100.

Definition after (s : State) (evs : list Event) : State := fold_left step evs s.

(** Two songs loaded and the first one started. *)
Definition playingFirst : State :=
  after fresh [FilesChosen [song "a"; song "b"]; PlayClick].

(** One song loaded, the metadata in: three minutes long. *)
Definition threeMinutes : State :=
  after fresh [FilesChosen [song "a"]; LoadedMetadata (Fin 180)].

Definition pointerAt (x : Q) : Pointer :=
  {| clientX := x; rect_left := 0; rect_width := 100 |}.

(** ** Case analysis on handlers *)

(** Split on the tests and matches a handler body branches on. *)
Ltac branch :=
  repeat (cbn;
          match goal with
          | |- context [match ?x with _ => _ end] =>
              lazymatch x with
              | context [match _ with _ => _ end] => fail
              | _ => destruct x eqn:?
              end
          end).

Ltac load_cases :=
  unfold loadMedia, showError, clearError, updatePlaylist, createObjectURL;
  branch; cbn.

(** Close a [sameCore] goal about a handler that is unfolded. *)
Ltac same_core := branch; split; cbn; solve [reflexivity | congruence | auto].

(** ** The time text

    [updateTimeDisplay] writes [formatTime(currentTime) / formatTime(duration)]
    into the time label.  The label is not a field of [State]; what would be
    written is computed from the element. *)

(** What [Math.floor] returns: an integer, or what it was given when that
    was not finite. *)
Inductive jsint : Type :=
| INaN
| IPosInf
| INegInf
| IInt (z : Z).

Definition Math_floor (x : num) : jsint :=
  match x with
  | NaN => INaN
  | PosInf => IPosInf
  | NegInf => INegInf
  | Fin q => IInt (Qfloor q)
  end.

(** Rounding towards zero. *)
Definition Qtrunc (q : Q) : Z :=
  if Qle_bool 0 q then Qfloor q else Qceiling q.

(** [x % y] on numbers: the remainder of the division truncated towards
    zero. *)
Definition num_rem (x y : num) : num :=
  match x, y with
  | NaN, _ | _, NaN => NaN
  | PosInf, _ | NegInf, _ => NaN
  | Fin a, Fin b =>
      match Qsign b with
      | Eq => NaN
      | _ => Fin (a - b * inject_Z (Qtrunc (a / b)))%Q
      end
  | Fin a, _ => Fin a
  end.

(** [n.toString()] for what [Math.floor] returns.  An integer is printed
    in decimal, which is what JavaScript does below 10^21; from 10^21 on
    JavaScript prints an exponent form, which is not modelled, so the
    properties below keep the integer under that bound. *)
Definition toString (n : jsint) : string :=
  match n with
  | INaN => "NaN"
  | IPosInf => "Infinity"
  | INegInf => "-Infinity"
  | IInt z => String_of z
  end.

(** [s.padStart(2, '0')] *)
Definition padStart2 (s : string) : string :=
  match String.length s with
  | 0%nat => "00"
  | 1%nat => "0" ++ s
  | _ => s
  end.

Definition isNaN (x : num) : bool :=
  match x with NaN => true | _ => false end.

Definition formatTime (seconds : num) : string :=
  if isNaN seconds then "00:00"
  else
    let mins := Math_floor (num_div seconds (Fin 60)) in
    let secs := Math_floor (num_rem seconds (Fin 60)) in
    padStart2 (toString mins) ++ ":" ++ padStart2 (toString secs).

(** The text [updateTimeDisplay] puts in the label for element [el]. *)
Definition timeText (el : Element) : string :=
  formatTime (Fin (currentTime el)) ++ " / " ++ formatTime (duration el).

(** ** Further notions used in the properties *)

(** Two songs chosen, the first started, then Next. *)
Definition threePresses : list Event :=
  [FilesChosen [song "a"; song "b"]; PlayClick; NextClick 0].

(** The two events that reach [togglePlay]. *)
Definition togglesPlay (ev : Event) : bool :=
  match ev with
  | PlayClick | KeyDown KeySpace => true
  | _ => false
  end.

(** The slider stands between its ends. *)
Definition sliderInRange (s : State) : Prop :=
  (0 <= volumeSlider s)%Q /\ (volumeSlider s <= 100)%Q.

(** Nothing is loaded, or what is loaded is an image: the controls have
    nothing to act on. *)
Definition nothingPlayable (s : State) : Prop :=
  match currentMedia s with
  | None => True
  | Some el => tagName el = IMG
  end.

(** Every item of the playlist passed the filter of [handleFiles]. *)
Definition allMedia (s : State) : Prop :=
  Forall (fun f => isMediaFile f = true) (playlist s).

(** Every URL that is valid is tracked, and conversely. *)
Definition urlsTracked (s : State) : Prop := blobUrls s = objectUrls s.

(** The element on the page is backed by a URL that is valid and tracked. *)
Definition sourceValid (s : State) : Prop :=
  forall el, currentMedia s = Some el ->
             src el ∈ blobUrls s /\ src el ∈ objectUrls s.

(** The value of a decimal numeral read left to right, on top of [acc]. *)
Fixpoint uint_value (acc : Z) (d : Decimal.uint) : Z :=
  match d with
  | Decimal.Nil => acc
  | Decimal.D0 d => uint_value (10 * acc + 0) d
  | Decimal.D1 d => uint_value (10 * acc + 1) d
  | Decimal.D2 d => uint_value (10 * acc + 2) d
  | Decimal.D3 d => uint_value (10 * acc + 3) d
  | Decimal.D4 d => uint_value (10 * acc + 4) d
  | Decimal.D5 d => uint_value (10 * acc + 5) d
  | Decimal.D6 d => uint_value (10 * acc + 6) d
  | Decimal.D7 d => uint_value (10 * acc + 7) d
  | Decimal.D8 d => uint_value (10 * acc + 8) d
  | Decimal.D9 d => uint_value (10 * acc + 9) d
  end.

(** The items an event appends to the playlist. *)
Definition added (ev : Event) : list File.t :=
  match ev with
  | FilesChosen files => List.filter isMediaFile files
  | _ => []
  end.

(** The files an event adds all have names that are plain text. *)
Definition plainEvent (ev : Event) : Prop :=
  Forall (fun f => plainName (File.name f) = true) (added ev).

(** The names of the playlist and the names the listing was built from are
    plain text. *)
Definition plainNames (s : State) : Prop :=
  Forall (fun f => plainName (File.name f) = true) (playlist s) /\
  match playlistEl s with
  | ViewItems names _ => Forall (fun n => plainName n = true) names
  | _ => True
  end.

(** The states of the sessions in which every file chosen has a plain
    name. *)
Inductive reachablePlain : State -> Prop :=
| plain_init store slider : reachablePlain (constructor store slider)
| plain_step s ev :
    reachablePlain s -> wellFormed ev -> plainEvent ev -> reachablePlain (step s ev).

(** A song whose name brings a button of its own, with index 7. *)
Definition decoy : File.t :=
  {| File.name := "x<button data-idx=7>y"; File.type := "audio/mpeg";
     File.size := 4096 |}.

(** [s'] has the flags and the slider of [s]. *)
Record sameModes (s s' : State) : Prop := {
  modes_playing : isPlaying s' = isPlaying s;
  modes_loop : loop s' = loop s;
  modes_shuffle : shuffle s' = shuffle s;
  modes_dragging : thumbDragging s' = thumbDragging s;
  modes_slider : volumeSlider s' = volumeSlider s
}.

(** Unfold the handlers that do not load. *)
Ltac unfold_handlers :=
  unfold togglePlay, toggleMute, setVolume, seek, handleKeyboard, toggleLoop,
    toggleShuffle, startThumbDrag, onThumbMove, endThumbDrag, onMediaLoaded,
    handleMediaError, onPlayRejected, platformSets, updateProgress,
    assignCurrentTime, showError, clearError, andThen, run in *.

(** The listing shows names the playlist starts with: entry [i] of the
    listing is labelled with the name of item [i]. *)
Definition listingLabelled (s : State) : Prop :=
  match playlistEl s with
  | ViewItems names _ =>
      exists rest, map File.name (playlist s) = (names ++ rest)%list
  | _ => True
  end.

(** * Properties *)

(** ** Arithmetic of the index *)

Lemma floor_scaled_range (r : Q) (n : Z) :
  unitDraw r -> 0 < n -> 0 <= floor_scaled r n < n.
Proof.
  intros [Hlo Hhi] Hn. unfold floor_scaled.
  assert (Hpos : (inject_Z 0 < inject_Z n)%Q) by (rewrite <- Zlt_Qlt; exact Hn).
  split.
  - change 0 with (Qfloor 0). apply Qfloor_resp_le.
    apply Qmult_le_0_compat; [exact Hlo | apply Qlt_le_weak, Hpos].
  - rewrite Zlt_Qlt.
    apply Qle_lt_trans with (r * inject_Z n)%Q; [apply Qfloor_le|].
    rewrite <- (Qmult_1_l (inject_Z n)) at 2.
    apply Qmult_lt_compat_r; assumption.
Qed.

Lemma next_index_wraps (i n : Z) :
  0 <= i < n -> js_rem (i + 1) n = (i + 1) mod n.
Proof. intros H. unfold js_rem. apply Z.rem_mod_nonneg; lia. Qed.

Lemma previous_index_wraps (i n : Z) :
  0 <= i < n -> js_rem (i - 1 + n) n = (i - 1) mod n.
Proof.
  intros H. unfold js_rem. rewrite Z.rem_mod_nonneg by lia.
  rewrite <- (Z.mul_1_l n) at 1. apply Z_mod_plus_full.
Qed.

Lemma length_pos_of_nonempty {A} (l : list A) : l <> [] -> 0 < Z.of_nat (length l).
Proof. destruct l; [congruence | cbn; lia]. Qed.

Lemma length_eqb_0 {A} (l : list A) : (length l =? 0)%nat = true <-> l = [].
Proof. rewrite Nat.eqb_eq. destruct l; cbn; split; congruence. Qed.

(** ** Frame lemmas *)

(** What [loadMedia] never writes, whether it returns or throws. *)
Lemma loadMedia_frame file s :
  let s' := state_of (loadMedia file s) in
  playlist s' = playlist s /\ currentIndex s' = currentIndex s /\
  isPlaying s' = isPlaying s /\ loop s' = loop s /\ shuffle s' = shuffle s /\
  thumbDragging s' = thumbDragging s /\ playBtn s' = playBtn s /\
  localStorage s' = localStorage s.
Proof. load_cases; repeat split; reflexivity. Qed.

Lemma sameCore_refl s : sameCore s s.
Proof. split; auto. Qed.

Lemma sameCore_trans s1 s2 s3 : sameCore s1 s2 -> sameCore s2 s3 -> sameCore s1 s3.
Proof.
  intros [] []. split; try congruence. auto.
Qed.

Lemma Inv_sameCore s s' : sameCore s s' -> Inv s -> Inv s'.
Proof.
  intros [Hp Hi Hm Hv Ht Hb Hc] [I1 I2 I3 I4]. split.
  - unfold indexInRange in *. rewrite Hp, Hi. exact I1.
  - unfold sessionNeedsItems in *. rewrite Hp. auto.
  - unfold buttonsListed in *. rewrite Hp, Hv. exact I3.
  - unfold urlsIssued in *. rewrite Ht, Hb, Hc. exact I4.
Qed.

Lemma andThen_core (h k : Handler) s :
  sameCore s (state_of (h s)) ->
  (forall s1, sameCore s1 (state_of (k s1))) ->
  sameCore s (state_of ((h >> k) s)).
Proof.
  intros Hh Hk. unfold andThen. destruct (h s) as [s1|s1]; cbn in *; [|exact Hh].
  eapply sameCore_trans; [exact Hh | apply Hk].
Qed.

Lemma showError_core msg s : sameCore s (showError msg s).
Proof. unfold showError, clearError. same_core. Qed.

Lemma clearError_core s : sameCore s (clearError s).
Proof. unfold clearError. same_core. Qed.

Lemma assignCurrentTime_core v s : sameCore s (state_of (assignCurrentTime v s)).
Proof. unfold assignCurrentTime. same_core. Qed.

Lemma assignWidth_core v s : sameCore s (assignWidth v s).
Proof. unfold assignWidth. same_core. Qed.

Lemma updateProgress_core s : sameCore s (updateProgress s).
Proof.
  unfold updateProgress. destruct (currentMedia s) as [el|]; [|apply sameCore_refl].
  destruct (tagName el); try apply sameCore_refl; apply assignWidth_core.
Qed.

Lemma togglePlay_core s : sameCore s (state_of (togglePlay s)).
Proof. unfold togglePlay. same_core. Qed.

Lemma setVolume_core v s : sameCore s (state_of (setVolume v s)).
Proof. unfold setVolume. same_core. Qed.

Lemma toggleMute_core s : sameCore s (state_of (toggleMute s)).
Proof. unfold toggleMute. same_core. Qed.

Lemma seek_core e s : sameCore s (state_of (seek e s)).
Proof.
  unfold seek. destruct (currentMedia s) as [el|] eqn:E; [|apply sameCore_refl].
  destruct (tagName el); try apply sameCore_refl;
    (apply andThen_core; [apply assignCurrentTime_core | intros; apply updateProgress_core]).
Qed.

Lemma handleKeyboard_core k s : sameCore s (state_of (handleKeyboard k s)).
Proof.
  unfold handleKeyboard.
  destruct (currentMedia s) as [el|] eqn:E; [|apply sameCore_refl].
  destruct (tagName el) eqn:T; try apply sameCore_refl;
    destruct k; try apply sameCore_refl;
    try apply togglePlay_core; try apply assignCurrentTime_core;
    (apply andThen_core; [split; reflexivity || auto | intros; apply setVolume_core]).
Qed.

Lemma onThumbMove_core e s : sameCore s (state_of (onThumbMove e s)).
Proof.
  unfold onThumbMove. destruct (negb (thumbDragging s)); [apply sameCore_refl|].
  destruct (currentMedia s) as [el|]; [|apply sameCore_refl].
  destruct (tagName el); try apply sameCore_refl; apply assignWidth_core.
Qed.

Lemma endThumbDrag_core e s : sameCore s (state_of (endThumbDrag e s)).
Proof.
  unfold endThumbDrag. destruct (negb (thumbDragging s)); [apply sameCore_refl|].
  cbn. destruct (currentMedia s) as [el|] eqn:E; [|split; reflexivity || auto].
  destruct (tagName el);
    try (split; cbn; reflexivity || auto);
    (eapply sameCore_trans; [|apply assignCurrentTime_core]; split; cbn; reflexivity || auto).
Qed.

Lemma platformSets_core f s : sameCore s (platformSets f s).
Proof. unfold platformSets. same_core. Qed.

Lemma loopReplay_core s :
  sameCore s (state_of ((assignCurrentTime (Fin 0) >>
     run (fun s => set_currentMedia (option_map el_play (currentMedia s)) s)) s)).
Proof.
  apply andThen_core; [apply assignCurrentTime_core|].
  intros s1. split; cbn; try reflexivity. destruct (currentMedia s1); cbn; congruence.
Qed.

(** A quiet event leaves the playlist, the index, the listing and the
    object URLs alone. *)
Lemma quiet_core s ev : quiet ev = true -> sameCore s (step s ev).
Proof.
  intros Hq. unfold step.
  destruct ev; try discriminate Hq; cbn [dispatch].
  - apply togglePlay_core.
  - apply toggleMute_core.
  - apply andThen_core; [split; reflexivity || auto | intros; apply setVolume_core].
  - apply seek_core.
  - split; reflexivity || auto.
  - split; reflexivity || auto.
  - split; reflexivity || auto.
  - apply onThumbMove_core.
  - apply endThumbDrag_core.
  - apply handleKeyboard_core.
  - destruct (errorMessage s); [apply clearError_core | apply sameCore_refl].
  - apply andThen_core; [apply platformSets_core | intros; apply sameCore_refl].
  - apply andThen_core; [apply platformSets_core | intros; apply updateProgress_core].
  - apply showError_core.
  - apply showError_core.
  - apply sameCore_refl.
Qed.

(** ** The invariant *)

Lemma updatePlaylist_Inv s : Inv s -> Inv (updatePlaylist s).
Proof.
  intros [I1 I2 I3 I4]. unfold updatePlaylist.
  destruct (length (playlist s) <=? 1)%nat; split; try assumption;
    unfold buttonsListed; cbn; [lia | rewrite length_map; lia].
Qed.

Lemma saveState_Inv s : Inv s -> Inv (saveState s).
Proof. apply Inv_sameCore. split; reflexivity || auto. Qed.

Lemma set_currentIndex_Inv i s :
  Inv s -> 0 <= i < Z.of_nat (length (playlist s)) -> Inv (set_currentIndex i s).
Proof.
  intros [I1 I2 I3 I4] Hi. split; try assumption. intros _. exact Hi.
Qed.

(** Loading keeps the invariant as soon as there is an item to load. *)
Lemma loadMedia_Inv file s : Inv s -> playlist s <> [] -> Inv (state_of (loadMedia file s)).
Proof.
  intros [I1 I2 I3 I4] Hne.
  assert (Hfresh : forall u : Url,
             u ∈ ({[urlCounter s]} ∪ blobUrls s) ∪ ({[urlCounter s]} ∪ objectUrls s) ->
             (u < S (urlCounter s))%nat).
  { intros u Hu.
    destruct (decide (u = urlCounter s)) as [->|Hneq]; [lia|].
    assert (u ∈ blobUrls s ∪ objectUrls s) as Hin by set_solver.
    apply I4 in Hin. lia. }
  unfold indexInRange, sessionNeedsItems, buttonsListed, urlsIssued in *.
  load_cases; split;
    unfold indexInRange, sessionNeedsItems, buttonsListed, urlsIssued; cbn;
    try assumption; try (intros _; assumption);
    try lia; try (rewrite length_map; lia).
Qed.

Lemma revokeAll_fields (l : list Url) s :
  let s' := foldr revokeObjectURL s l in
  blobUrls s' = blobUrls s ∖ list_to_set l /\
  objectUrls s' = objectUrls s /\ urlCounter s' = urlCounter s /\
  playlist s' = playlist s /\ currentIndex s' = currentIndex s /\
  currentMedia s' = currentMedia s /\ playlistEl s' = playlistEl s /\
  isPlaying s' = isPlaying s /\ thumbDragging s' = thumbDragging s.
Proof.
  induction l as [|u l IH]; cbn.
  - repeat split; try reflexivity. set_solver.
  - destruct IH as (Hb & Ho & Hc & Hp & Hi & Hm & Hv & Hpl & Hd).
    repeat split; try assumption. rewrite Hb. set_solver.
Qed.

Lemma cleanupUrls_Inv s : Inv s -> Inv (state_of (cleanupUrls s)).
Proof.
  intros [I1 I2 I3 I4]. unfold cleanupUrls, run. cbn.
  destruct (revokeAll_fields (elements (objectUrls s)) s)
    as (Hb & Ho & Hc & Hp & Hi & Hm & Hv & _).
  split.
  - unfold indexInRange in *. cbn. rewrite Hp, Hi. exact I1.
  - unfold sessionNeedsItems in *. cbn. rewrite Hp, Hm. exact I2.
  - unfold buttonsListed in *. cbn. rewrite Hp, Hv. exact I3.
  - unfold urlsIssued in *. cbn. rewrite Hb, Hc. intros u Hu. apply I4. set_solver.
Qed.

Lemma handleFiles_Inv files s : Inv s -> Inv (state_of (handleFiles files s)).
Proof.
  intros HI. unfold handleFiles.
  destruct (length (List.filter isMediaFile files) =? 0)%nat eqn:Hempty.
  { cbn. eapply Inv_sameCore; [apply showError_core | exact HI]. }
  set (added := List.filter isMediaFile files) in *.
  assert (Hadded : added <> []).
  { intros E. rewrite E in Hempty. discriminate. }
  cbn [playlist set_playlist].
  assert (Hne : (playlist s ++ added)%list <> []).
  { intros E. apply app_eq_nil in E. tauto. }
  destruct (length (playlist s ++ added)%list =? 0)%nat eqn:Hlen.
  { apply length_eqb_0 in Hlen. contradiction. }
  destruct HI as [I1 I2 I3 I4].
  cbn [currentMedia set_playlist].
  destruct (currentMedia s) as [el|] eqn:Hmedia.
  - (* an element is there: the index stays *)
    unfold andThen, run. cbn.
    apply saveState_Inv, updatePlaylist_Inv.
    assert (Hold : playlist s <> []) by (apply I2; rewrite Hmedia; discriminate).
    split.
    + intros _. cbn. rewrite length_app. specialize (I1 Hold). lia.
    + intros _. cbn. exact Hne.
    + unfold buttonsListed in *. cbn. rewrite length_app. lia.
    + exact I4.
  - (* first load: the index is reset *)
    unfold andThen at 1. unfold andThen at 1. unfold run at 1. cbn beta iota.
    set (s1 := set_currentIndex 0 (set_playlist (playlist s ++ added)%list s)).
    assert (H1 : Inv s1).
    { split.
      - intros _. cbn. pose proof (length_pos_of_nonempty _ Hne). lia.
      - intros _. cbn. exact Hne.
      - unfold buttonsListed in *. cbn. rewrite length_app. lia.
      - exact I4. }
    pose proof (loadMedia_Inv (item (playlist s1) 0) s1 H1 Hne) as H2.
    destruct (loadMedia (item (playlist s1) 0) s1) as [s2|s2]; cbn in *;
      [apply saveState_Inv, updatePlaylist_Inv|]; exact H2.
Qed.

Lemma loadThenSave_Inv file s :
  Inv s -> playlist s <> [] -> Inv (state_of ((loadMedia file >> run saveState) s)).
Proof.
  intros HI Hne. pose proof (loadMedia_Inv file s HI Hne) as H.
  unfold andThen, run. destruct (loadMedia file s); cbn in *;
    [apply saveState_Inv|]; exact H.
Qed.

Lemma playNext_Inv r s : unitDraw r -> Inv s -> Inv (state_of (playNext r s)).
Proof.
  intros Hr HI. unfold playNext.
  destruct (length (playlist s) =? 0)%nat eqn:Hlen; [exact HI|].
  assert (Hne : playlist s <> []).
  { intros E. apply length_eqb_0 in E. congruence. }
  pose proof (length_pos_of_nonempty _ Hne) as Hpos.
  pose proof (inv_index _ HI Hne) as Hidx.
  destruct (shuffle s).
  - apply loadThenSave_Inv; [|exact Hne].
    apply set_currentIndex_Inv; [exact HI|]. apply floor_scaled_range; assumption.
  - apply loadThenSave_Inv; [|exact Hne].
    apply set_currentIndex_Inv; [exact HI|].
    rewrite next_index_wraps by exact Hidx. apply Z.mod_pos_bound. lia.
Qed.

Lemma playPrevious_Inv r s : unitDraw r -> Inv s -> Inv (state_of (playPrevious r s)).
Proof.
  intros Hr HI. unfold playPrevious.
  destruct (length (playlist s) =? 0)%nat eqn:Hlen; [exact HI|].
  assert (Hne : playlist s <> []).
  { intros E. apply length_eqb_0 in E. congruence. }
  pose proof (length_pos_of_nonempty _ Hne) as Hpos.
  pose proof (inv_index _ HI Hne) as Hidx.
  destruct (shuffle s).
  - apply loadThenSave_Inv; [|exact Hne].
    apply set_currentIndex_Inv; [exact HI|]. apply floor_scaled_range; assumption.
  - apply loadThenSave_Inv; [|exact Hne].
    apply set_currentIndex_Inv; [exact HI|].
    rewrite previous_index_wraps by exact Hidx. apply Z.mod_pos_bound. lia.
Qed.

Lemma playlistItemClick_Inv i s :
  0 <= i < Z.of_nat (length (playlist s)) ->
  Inv s -> Inv (state_of (playlistItemClick i s)).
Proof.
  intros Hi HI.
  assert (Hne : playlist s <> []).
  { intros E. rewrite E in Hi. cbn in Hi. lia. }
  unfold playlistItemClick. unfold andThen at 1. unfold run at 1.
  apply (loadThenSave_Inv (item (playlist (set_currentIndex i s)) i)).
  - apply set_currentIndex_Inv; [exact HI | exact Hi].
  - exact Hne.
Qed.

(** In a listing built from plain names, the button that carries the
    listener of an entry is its Play button. *)
Lemma clickedIdx_plain s i idx :
  plainNames s -> clickedIdx (playlistEl s) i = Some idx ->
  idx = Z.of_nat i /\ (i < buttons (playlistEl s))%nat.
Proof.
  intros [_ Hplain]. unfold clickedIdx, buttons.
  destruct (playlistEl s) as [| |names active]; try discriminate.
  destruct (names !! i) as [n|] eqn:Hn; [|discriminate].
  rewrite Forall_lookup in Hplain. rewrite (Hplain i n Hn).
  intros [= <-]. split; [reflexivity|]. apply lookup_lt_Some in Hn. exact Hn.
Qed.

Lemma constructor_Inv store slider : Inv (constructor store slider).
Proof.
  unfold constructor, restoreState, tryCatch. cbn.
  destruct (savedPlaylistFound (ump_playlist_meta store)) as [[|]|]; cbn;
    split; unfold indexInRange, sessionNeedsItems, buttonsListed, urlsIssued; cbn;
    try congruence; try lia; set_solver.
Qed.

Lemma step_Inv s ev : wellFormed ev -> plainNames s -> Inv s -> Inv (step s ev).
Proof.
  intros Hwf Hplain HI. destruct (quiet ev) eqn:Hq.
  { eapply Inv_sameCore; [apply quiet_core, Hq | exact HI]. }
  unfold step. destruct ev; try discriminate Hq; cbn [dispatch wellFormed] in *.
  - apply handleFiles_Inv, HI.
  - apply playPrevious_Inv; assumption.
  - apply playNext_Inv; assumption.
  - destruct (clickedIdx (playlistEl s) idx) as [i|] eqn:Hi; [|exact HI].
    destruct (clickedIdx_plain s idx i Hplain Hi) as [-> Hlt].
    pose proof (inv_buttons _ HI) as Hb. unfold buttonsListed in Hb.
    apply playlistItemClick_Inv; [lia | exact HI].
  - unfold onMediaEnded. destruct (loop s); [|apply playNext_Inv; assumption].
    destruct (currentMedia s) as [el|]; [|exact HI].
    destruct (tagName el); try exact HI;
      (eapply Inv_sameCore; [apply loopReplay_core | exact HI]).
  - apply cleanupUrls_Inv, HI.
Qed.

(** ** Switching items and the playing flag *)

(** [loadMedia] pauses the element it replaces, and the element it makes
    is paused; the flag it leaves as it found it. *)
Lemma loadMedia_isPlaying file s :
  isPlaying (state_of (loadMedia file s)) = isPlaying s.
Proof. apply (loadMedia_frame file s). Qed.

Lemma loadMedia_element_paused f s s' el :
  loadMedia (Some f) s = Done s' -> currentMedia s' = Some el -> paused el = true.
Proof.
  unfold loadMedia, showError, clearError, updatePlaylist, createObjectURL.
  branch; cbn; intros [= <-]; cbn; intros [= <-]; reflexivity.
Qed.

(** C1, as the code has it.  The claim is that a load always ends with the
    playing flag false.  In the session below the first of two songs is
    playing when Next is pressed: the second song is loaded and its element
    is paused, yet [isPlaying] is still true and the button still shows the
    pause glyph. *)
Theorem switching_leaves_playing_flag_set :
  let s := step playingFirst (NextClick 0) in
  isPlaying playingFirst = true /\
  currentIndex s = 1 /\
  option_map tagName (currentMedia s) = Some AUDIO /\
  option_map paused (currentMedia s) = Some true /\
  playBtn s = GlyphPause /\
  isPlaying s = true.
Proof. vm_compute. repeat split; reflexivity. Qed.

(** ** A rejected request to play *)

Lemma rejected_play_general s el :
  currentMedia s = Some el -> isAudioOrVideo el = true -> isPlaying s = false ->
  let s' := step (step s PlayClick) PlayRejected in
  errorMessage s' = Some "Unable to play media (autoplay blocked?)" /\
  isPlaying s' = true.
Proof.
  intros Hm Hav Hp. unfold step. cbn [dispatch].
  unfold togglePlay. rewrite Hm. unfold isAudioOrVideo in Hav.
  destruct (tagName el); [discriminate| |]; rewrite Hp; cbn; rewrite Hp; split; reflexivity.
Qed.

(** C2, as the code has it.  The claim is that after a rejected request to
    play the error is shown and the playing flag is false.  In the session
    below a song is loaded, Play is pressed and the platform rejects the
    request: the error is shown, and [isPlaying] stays true. *)
Theorem rejected_play_leaves_flag_set :
  let s0 := after fresh [FilesChosen [song "a"]] in
  let s := after s0 [PlayClick; PlayRejected] in
  isPlaying s0 = false /\
  errorMessage s = Some "Unable to play media (autoplay blocked?)" /\
  isPlaying s = true.
Proof. vm_compute. repeat split; reflexivity. Qed.

(** ** Adding files *)

Lemma updateThenSave_fields s :
  let s' := state_of ((run updatePlaylist >> run saveState) s) in
  playlist s' = playlist s /\ currentIndex s' = currentIndex s.
Proof. unfold andThen, run, updatePlaylist, saveState. branch; split; reflexivity. Qed.

Lemma handleFiles_core_fields files s :
  let added := List.filter isMediaFile files in
  added <> [] ->
  playlist (state_of (handleFiles files s)) = (playlist s ++ added)%list /\
  currentIndex (state_of (handleFiles files s))
    = match currentMedia s with
      | None => 0
      | Some _ => currentIndex s
      end.
Proof.
  intros added Hadded.
  remember (state_of (handleFiles files s)) as s' eqn:Hs'.
  unfold handleFiles in Hs'. fold added in Hs'.
  destruct (length added =? 0)%nat eqn:Hempty.
  { apply length_eqb_0 in Hempty. contradiction. }
  cbn [playlist set_playlist currentMedia] in Hs'.
  destruct (length (playlist s ++ added) =? 0)%nat eqn:Hlen.
  { apply length_eqb_0, app_eq_nil in Hlen. tauto. }
  destruct (currentMedia s) as [el|] eqn:Hmedia.
  - unfold andThen at 1 in Hs'. unfold run at 1 in Hs'. cbn beta iota in Hs'.
    destruct (updateThenSave_fields (id (set_playlist (playlist s ++ added) s)))
      as [Hp Hi].
    rewrite <- Hs' in Hp, Hi. rewrite Hp, Hi. split; reflexivity.
  - unfold andThen at 1 in Hs'. unfold andThen at 1 in Hs'.
    unfold run at 1 in Hs'. cbn beta iota in Hs'.
    set (s1 := set_currentIndex 0 (set_playlist (playlist s ++ added) s)) in *.
    destruct (loadMedia_frame (item (playlist s1) 0) s1) as (Hp & Hi & _).
    destruct (loadMedia (item (playlist s1) 0) s1) as [s2|s2]; cbn in Hp, Hi.
    + destruct (updateThenSave_fields s2) as [Hp2 Hi2].
      rewrite <- Hs' in Hp2, Hi2. rewrite Hp2, Hi2, Hp, Hi. split; reflexivity.
    + cbn in Hs'. subst s'. rewrite Hp, Hi. split; reflexivity.
Qed.

Lemma prefix_app (p t : string) :
  String.prefix p t = true -> exists r, t = (p ++ r)%string.
Proof.
  revert t. induction p as [|a p IH]; intros t H.
  - exists t. reflexivity.
  - destruct t as [|b t]; cbn in H; [discriminate|].
    destruct (ascii_dec a b) as [->|]; [|discriminate].
    destruct (IH t H) as [r ->]. exists r. reflexivity.
Qed.

Lemma isMediaFile_supported (f : File.t) :
  isMediaFile f = true -> exists tag, tagOfType (majorType f) = Some tag.
Proof.
  unfold isMediaFile, startsWith, majorType. intros H.
  apply orb_true_iff in H. destruct H as [H|H];
    [apply orb_true_iff in H; destruct H as [H|H]|];
    apply prefix_app in H; destruct H as [r ->]; eexists; reflexivity.
Qed.

(** A load that goes through: the file is supported and the volume is
    accepted.  The element is new, paused at position 0, and its source is
    the one URL the load makes. *)
Lemma loadMedia_installs f s tag :
  tagOfType (majorType f) = Some tag -> volumeAccepted tag s ->
  exists s1 el,
    loadMedia (Some f) s = Done s1 /\
    currentMedia s1 = Some el /\ tagName el = tag /\ src el = urlCounter s /\
    paused el = true /\ currentTime el = 0%Q /\
    errorMessage s1 = None /\ dropZoneHidden s1 = true /\
    urlCounter s1 = S (urlCounter s) /\
    objectUrls s1 = {[urlCounter s]} ∪ objectUrls s /\
    blobUrls s1 = {[urlCounter s]} ∪ blobUrls s.
Proof.
  intros Htag Hvol. unfold loadMedia. rewrite Htag.
  cbn -[volumeInRange Qdiv updatePlaylist].
  unfold volumeAccepted in Hvol.
  destruct (currentMedia s) as [el0|]; [destruct (isAudioOrVideo el0)|];
    cbn -[volumeInRange Qdiv updatePlaylist];
    destruct tag; destruct Hvol as [Himg|Hvol]; try discriminate Himg;
    rewrite ?Hvol;
    do 2 eexists; (split; [reflexivity|]);
    unfold updatePlaylist; branch; repeat split; reflexivity.
Qed.

Lemma updateThenSave_media s :
  currentMedia (saveState (updatePlaylist s)) = currentMedia s.
Proof. unfold updatePlaylist, saveState. branch; reflexivity. Qed.

(** C3 as stated fails: with one song in the playlist, a batch of a single
    text file is reported as having no supported file, although the
    playlist was not empty. *)
Lemma empty_batch_reported_on_nonempty_playlist :
  let s := after fresh [FilesChosen [song "a"]] in
  List.filter isMediaFile [notes] = [] /\
  ~ (errorMessage (step s (FilesChosen [notes]))
       = Some "No supported media files found" <-> playlist s = []).
Proof.
  split; [reflexivity|]. intros [Hto _].
  assert (H : playlist (after fresh [FilesChosen [song "a"]]) = []).
  { apply Hto. vm_compute. reflexivity. }
  vm_compute in H. discriminate H.
Qed.

(** C3, amended.  For every batch whose audio / video / image subset is
    empty, the playlist and [currentIndex] are left unchanged and the "no
    supported files" error is reported, whatever the playlist held
    before. *)
Theorem empty_batch_reports_and_keeps (s : State) (files : list File.t) :
  List.filter isMediaFile files = [] ->
  let s' := step s (FilesChosen files) in
  playlist s' = playlist s /\
  currentIndex s' = currentIndex s /\
  errorMessage s' = Some "No supported media files found".
Proof.
  intros Hnone. unfold step. cbn [dispatch]. unfold handleFiles.
  rewrite Hnone. cbn. repeat split; reflexivity.
Qed.

Lemma empty_batch_reports_and_keeps_witness :
  List.filter isMediaFile [notes] = [] /\
  playlist (step playingFirst (FilesChosen [notes])) = playlist playingFirst /\
  currentIndex (step playingFirst (FilesChosen [notes])) = currentIndex playingFirst /\
  errorMessage (step playingFirst (FilesChosen [notes]))
    = Some "No supported media files found".
Proof.
  split; [reflexivity|].
  apply (empty_batch_reports_and_keeps playingFirst [notes]). reflexivity.
Defined.

(** C4 as stated fails: on a revisit the index read back from the store is
    3; the first batch that is added resets it to 0. *)
Lemma first_batch_resets_restored_index :
  List.filter isMediaFile [song "a"] <> [] /\
  currentIndex revisit = 3 /\
  currentIndex (step revisit (FilesChosen [song "a"])) <> currentIndex revisit.
Proof. vm_compute. repeat split; discriminate. Qed.

(** What a batch does to the element.  One that is on the page stays.
    When there is none, item 0 of the grown playlist is loaded: it becomes
    the element as soon as its type is supported and its volume accepted. *)
Lemma handleFiles_element files s :
  let added := List.filter isMediaFile files in
  let s' := state_of (handleFiles files s) in
  added <> [] ->
  (forall el, currentMedia s = Some el -> currentMedia s' = Some el) /\
  (currentMedia s = None ->
   forall f0 tag,
     (playlist s ++ added)%list !! 0%nat = Some f0 ->
     tagOfType (majorType f0) = Some tag -> volumeAccepted tag s ->
     exists el,
       currentMedia s' = Some el /\ tagName el = tag /\ src el = urlCounter s /\
       paused el = true /\ currentTime el = 0%Q).
Proof.
  intros added s' Hadded. subst s'.
  unfold handleFiles. fold added.
  destruct (length added =? 0)%nat eqn:Hempty.
  { apply length_eqb_0 in Hempty. contradiction. }
  cbn [playlist set_playlist currentMedia].
  destruct (length (playlist s ++ added) =? 0)%nat eqn:Hlen.
  { apply length_eqb_0, app_eq_nil in Hlen. tauto. }
  destruct (currentMedia s) as [el0|] eqn:Hmedia.
  - split; [|discriminate]. intros el [= <-].
    unfold andThen, run. cbn [state_of id].
    rewrite updateThenSave_media. cbn. exact Hmedia.
  - split; [discriminate|]. intros _ f0 tag Hf0 Htag Hvol.
    unfold andThen at 1. unfold andThen at 1. unfold run at 1. cbn beta iota.
    set (s1 := set_currentIndex 0 (set_playlist (playlist s ++ added) s)).
    assert (Hitem : item (playlist s1) 0 = Some f0) by exact Hf0.
    rewrite Hitem.
    destruct (loadMedia_installs f0 s1 tag Htag Hvol)
      as (s2 & el & Hload & Hel & Htn & Hsrc & Hpa & Hct & _).
    rewrite Hload. unfold andThen, run. cbn [state_of].
    exists el. rewrite updateThenSave_media. repeat split; assumption.
Qed.

(** C4, amended.  For every batch whose audio / video / image subset is not
    empty, the playlist grows by exactly that subset: the items it held
    keep their places, the subset follows in its own order.  When an
    element is loaded already, [currentIndex] is not altered and the
    element stays.  When none is, [currentIndex] is set to 0 and item 0 of
    the playlist is loaded: it becomes the element, paused at position 0
    and with a new URL, whenever its type is supported and, for audio and
    video, the slider gives a volume the platform accepts; on an empty
    playlist item 0 is the first file of the subset, whose type is
    supported. *)
Theorem batch_is_appended (s : State) (files : list File.t) :
  let added := List.filter isMediaFile files in
  let s' := step s (FilesChosen files) in
  added <> [] ->
  playlist s' = (playlist s ++ added)%list /\
  length (playlist s') = (length (playlist s) + length added)%nat /\
  (forall (i : nat) (f : File.t),
      playlist s !! i = Some f -> playlist s' !! i = Some f) /\
  (forall i : nat, playlist s' !! (length (playlist s) + i)%nat = added !! i) /\
  currentIndex s' = match currentMedia s with
                    | None => 0
                    | Some _ => currentIndex s
                    end /\
  (forall el, currentMedia s = Some el -> currentMedia s' = Some el) /\
  (currentMedia s = None ->
   forall f0 tag,
     playlist s' !! 0%nat = Some f0 ->
     tagOfType (majorType f0) = Some tag -> volumeAccepted tag s ->
     exists el,
       currentMedia s' = Some el /\ tagName el = tag /\ src el = urlCounter s /\
       paused el = true /\ currentTime el = 0%Q) /\
  (playlist s = [] ->
   exists f0 tag,
     added !! 0%nat = Some f0 /\ playlist s' !! 0%nat = Some f0 /\
     tagOfType (majorType f0) = Some tag).
Proof.
  intros added s' Hadded.
  destruct (handleFiles_core_fields files s Hadded) as [Hp Hi].
  destruct (handleFiles_element files s Hadded) as [Hkeep Hload].
  fold added in Hp, Hload. subst s'. unfold step. cbn [dispatch].
  rewrite Hp. repeat split.
  - apply length_app.
  - intros i f Hf. apply lookup_app_l_Some. exact Hf.
  - intros i. rewrite lookup_app_r by lia. f_equal. lia.
  - exact Hi.
  - exact Hkeep.
  - exact Hload.
  - intros Hnil. rewrite Hnil. cbn [app].
    destruct added as [|f0 rest] eqn:Hf; [contradiction|].
    assert (Hin : In f0 (List.filter isMediaFile files)).
    { fold added. rewrite Hf. left. reflexivity. }
    apply List.filter_In in Hin. destruct Hin as [_ Hmedia].
    destruct (isMediaFile_supported f0 Hmedia) as [tag Htag].
    exists f0, tag. repeat split; try reflexivity. exact Htag.
Qed.

Lemma batch_is_appended_witness :
  List.filter isMediaFile [notes; song "c"; cover] <> [] /\
  playlist (step playingFirst (FilesChosen [notes; song "c"; cover]))
    = [song "a"; song "b"; song "c"; cover] /\
  currentIndex (step playingFirst (FilesChosen [notes; song "c"; cover])) = 0 /\
  currentMedia (step playingFirst (FilesChosen [notes; song "c"; cover]))
    = currentMedia playingFirst /\
  currentIndex (step revisit (FilesChosen [notes; song "c"; cover])) = 0 /\
  exists el,
    currentMedia (step revisit (FilesChosen [notes; song "c"; cover])) = Some el /\
    tagName el = AUDIO /\ src el = 0%nat /\ paused el = true.
Proof.
  assert (Hne : List.filter isMediaFile [notes; song "c"; cover] <> [])
    by (vm_compute; discriminate).
  split; [exact Hne|].
  destruct (batch_is_appended playingFirst [notes; song "c"; cover] Hne)
    as (Hp & _ & _ & _ & Hi & Hkeep & _).
  split; [exact Hp|]. split; [exact Hi|].
  split.
  { destruct (currentMedia playingFirst) as [el|] eqn:Hel;
      [|vm_compute in Hel; discriminate].
    apply Hkeep. reflexivity. }
  destruct (batch_is_appended revisit [notes; song "c"; cover] Hne)
    as (_ & _ & _ & _ & Hi0 & _ & Hload & _).
  split; [exact Hi0|].
  destruct (Hload eq_refl (song "c") AUDIO eq_refl eq_refl
              (or_intror eq_refl)) as (el & Hel & Htag & Hsrc & Hpa & _).
  exists el. repeat split; assumption.
Defined.

(** ** Object URLs *)

Lemma loadMedia_urls_kept file s :
  blobUrls s ⊆ blobUrls (state_of (loadMedia file s)).
Proof. load_cases; set_solver. Qed.

Lemma loadThenSave_urls_kept file s :
  blobUrls s ⊆ blobUrls (state_of ((loadMedia file >> run saveState) s)).
Proof.
  pose proof (loadMedia_urls_kept file s) as H. unfold andThen, run.
  destruct (loadMedia file s); cbn in *; exact H.
Qed.

Lemma handleFiles_urls_kept files s :
  blobUrls s ⊆ blobUrls (state_of (handleFiles files s)).
Proof.
  unfold handleFiles. branch; try reflexivity.
  - unfold andThen, run, updatePlaylist, saveState. branch; reflexivity.
  - unfold andThen at 1. unfold andThen at 1. unfold run at 1. cbn beta iota.
    match goal with
    | |- context [loadMedia ?f ?s1] =>
        pose proof (loadMedia_urls_kept f s1) as H;
        destruct (loadMedia f s1); cbn in H |- *
    end.
    + unfold andThen, run, updatePlaylist, saveState. branch; exact H.
    + exact H.
Qed.

Lemma playNext_urls_kept r s : blobUrls s ⊆ blobUrls (state_of (playNext r s)).
Proof.
  unfold playNext. destruct (length (playlist s) =? 0)%nat; [reflexivity|].
  destruct (shuffle s);
    match goal with
    | |- context [(loadMedia ?f >> _) ?s1] => apply (loadThenSave_urls_kept f s1)
    end.
Qed.

Lemma playPrevious_urls_kept r s : blobUrls s ⊆ blobUrls (state_of (playPrevious r s)).
Proof.
  unfold playPrevious. destruct (length (playlist s) =? 0)%nat; [reflexivity|].
  destruct (shuffle s);
    match goal with
    | |- context [(loadMedia ?f >> _) ?s1] => apply (loadThenSave_urls_kept f s1)
    end.
Qed.

Lemma sameCore_urls_kept s s' : sameCore s s' -> blobUrls s ⊆ blobUrls s'.
Proof. intros H. rewrite (core_valid _ _ H). reflexivity. Qed.

(** No event but the unload revokes a URL. *)
Lemma step_urls_kept s ev : ev <> BeforeUnload -> blobUrls s ⊆ blobUrls (step s ev).
Proof.
  intros Hev. destruct (quiet ev) eqn:Hq.
  { apply sameCore_urls_kept, quiet_core, Hq. }
  unfold step. destruct ev; try discriminate Hq; cbn [dispatch]; try congruence.
  - apply handleFiles_urls_kept.
  - apply playPrevious_urls_kept.
  - apply playNext_urls_kept.
  - destruct (clickedIdx (playlistEl s) idx) as [i|]; [|reflexivity].
    unfold playlistItemClick. unfold andThen at 1. unfold run at 1.
    match goal with
    | |- context [(?h >> _) ?s1] =>
        apply (loadThenSave_urls_kept (item (playlist s1) i) s1)
    end.
  - unfold onMediaEnded. destruct (loop s); [|apply playNext_urls_kept].
    destruct (currentMedia s) as [el|]; [|reflexivity].
    destruct (tagName el); try reflexivity;
      apply sameCore_urls_kept, loopReplay_core.
Qed.

Lemma loadMedia_success_urls f s s' :
  loadMedia (Some f) s = Done s' -> currentMedia s' <> None ->
  urlCounter s' = S (urlCounter s) /\
  objectUrls s' = {[urlCounter s]} ∪ objectUrls s /\
  blobUrls s' = {[urlCounter s]} ∪ blobUrls s /\
  option_map src (currentMedia s') = Some (urlCounter s).
Proof.
  unfold loadMedia, showError, clearError, updatePlaylist, createObjectURL.
  branch; cbn; intros [= <-]; cbn; intros Hsome;
    try congruence; repeat split; reflexivity.
Qed.

Lemma cleanupUrls_urls s :
  objectUrls (step s BeforeUnload) = ∅ /\
  blobUrls (step s BeforeUnload) = blobUrls s ∖ objectUrls s.
Proof.
  unfold step. cbn [dispatch]. unfold cleanupUrls, run. cbn.
  destruct (revokeAll_fields (elements (objectUrls s)) s) as (Hb & _).
  split; [reflexivity|]. rewrite Hb. f_equal. apply list_to_set_elements_L.
Qed.

(** C5.  Loading a file whose type is supported and whose volume is
    accepted succeeds and puts an element on the page.  A load that
    succeeds makes exactly one object URL, one that was never handed out
    before, gives it to the element and adds it to [objectUrls]; every URL
    that was valid stays valid, that of the replaced element included.  No
    event but the unload revokes a URL, and [cleanupUrls] revokes every URL
    of [objectUrls] and empties the set. *)
Theorem object_urls_lifecycle (s : State) :
  urlsIssued s ->
  (forall f tag,
      tagOfType (majorType f) = Some tag -> volumeAccepted tag s ->
      exists s' el,
        loadMedia (Some f) s = Done s' /\ currentMedia s' = Some el /\
        src el = urlCounter s /\
        (urlCounter s ∉ blobUrls s ∪ objectUrls s) /\
        urlCounter s' = S (urlCounter s) /\
        objectUrls s' = {[urlCounter s]} ∪ objectUrls s /\
        blobUrls s' = {[urlCounter s]} ∪ blobUrls s) /\
  (forall f s',
      loadMedia (Some f) s = Done s' -> currentMedia s' <> None ->
      (urlCounter s ∉ blobUrls s ∪ objectUrls s) /\
      urlCounter s' = S (urlCounter s) /\
      objectUrls s' = {[urlCounter s]} ∪ objectUrls s /\
      blobUrls s' = {[urlCounter s]} ∪ blobUrls s /\
      option_map src (currentMedia s') = Some (urlCounter s)) /\
  (forall ev, ev <> BeforeUnload -> blobUrls s ⊆ blobUrls (step s ev)) /\
  objectUrls (step s BeforeUnload) = ∅ /\
  blobUrls (step s BeforeUnload) = blobUrls s ∖ objectUrls s /\
  (forall u : Url, u ∈ objectUrls s -> u ∉ blobUrls (step s BeforeUnload)).
Proof.
  intros Hissued.
  assert (Hfresh : urlCounter s ∉ blobUrls s ∪ objectUrls s).
  { intros Hin. apply Hissued in Hin. lia. }
  split; [|split; [|split]].
  - intros f tag Htag Hvol.
    destruct (loadMedia_installs f s tag Htag Hvol)
      as (s' & el & Hload & Hel & _ & Hsrc & _ & _ & _ & _ & Hc & Ho & Hb).
    exists s', el. repeat split; assumption.
  - intros f s' Hload Hsome. split; [exact Hfresh|].
    apply (loadMedia_success_urls f s s' Hload Hsome).
  - apply step_urls_kept.
  - destruct (cleanupUrls_urls s) as [Ho Hb]. repeat split; try assumption.
    intros u Hu. rewrite Hb. set_solver.
Qed.

Lemma object_urls_lifecycle_witness :
  urlsIssued playingFirst /\
  (exists s' el,
      loadMedia (Some (song "b")) playingFirst = Done s' /\
      currentMedia s' = Some el /\ src el = urlCounter playingFirst /\
      urlCounter s' = S (urlCounter playingFirst) /\
      blobUrls s' = {[urlCounter playingFirst]} ∪ blobUrls playingFirst) /\
  blobUrls playingFirst ⊆ blobUrls (step playingFirst (NextClick 0)) /\
  objectUrls (step playingFirst BeforeUnload) = ∅.
Proof.
  assert (Hissued : urlsIssued playingFirst).
  { intros u Hu.
    replace (blobUrls playingFirst) with ({[0%nat]} : gset Url) in Hu
      by (vm_compute; reflexivity).
    replace (objectUrls playingFirst) with ({[0%nat]} : gset Url) in Hu
      by (vm_compute; reflexivity).
    replace (urlCounter playingFirst) with 1%nat by (vm_compute; reflexivity).
    apply elem_of_union in Hu.
    destruct Hu as [Hu|Hu]; apply elem_of_singleton in Hu; subst u; lia. }
  split; [exact Hissued|].
  destruct (object_urls_lifecycle playingFirst Hissued)
    as (Hmake & _ & Hkept & Hempty & _).
  split.
  { destruct (Hmake (song "b") AUDIO eq_refl (or_intror eq_refl))
      as (s' & el & Hload & Hel & Hsrc & _ & Hc & _ & Hb).
    exists s', el. repeat split; assumption. }
  split; [apply Hkept; discriminate | exact Hempty].
Defined.

(** ** The end of an item *)

(** C6.  When the current audio or video element ends with [loop] on, it is
    sent back to position 0 and asked to play: the index, the playlist and
    the object URLs are as before, and it is the same element with the same
    source.  With [loop] off the handler is [playNext]. *)
Theorem natural_end_policy (s : State) (r : Q) (el : Element) :
  currentMedia s = Some el -> isAudioOrVideo el = true ->
  (loop s = true ->
     onMediaEnded r s
       = Done (set_currentMedia (Some (el_play (el_set_currentTime 0 el))) s) /\
     let s' := step s (Ended r) in
     currentIndex s' = currentIndex s /\
     playlist s' = playlist s /\
     position s' = Some 0%Q /\
     option_map paused (currentMedia s') = Some false /\
     option_map src (currentMedia s') = Some (src el) /\
     option_map tagName (currentMedia s') = Some (tagName el) /\
     urlCounter s' = urlCounter s /\
     objectUrls s' = objectUrls s /\
     blobUrls s' = blobUrls s) /\
  (loop s = false ->
     onMediaEnded r s = playNext r s /\ step s (Ended r) = step s (NextClick r)).
Proof.
  intros Hm Hav. unfold step. cbn [dispatch]. unfold onMediaEnded. split; intros Hloop.
  - rewrite Hloop, Hm. unfold isAudioOrVideo in Hav.
    destruct (tagName el) eqn:Htag; [discriminate| |];
      unfold andThen, assignCurrentTime, run; rewrite Hm; cbn;
      rewrite ?Htag; repeat split; reflexivity.
  - rewrite Hloop. split; reflexivity.
Qed.

Lemma natural_end_policy_witness :
  position (step (step playingFirst LoopClick) (Ended 0)) = Some 0%Q /\
  currentIndex (step (step playingFirst LoopClick) (Ended 0)) = 0 /\
  step playingFirst (Ended 0) = step playingFirst (NextClick 0).
Proof.
  split; [|split].
  - eapply (natural_end_policy (step playingFirst LoopClick) 0);
      [vm_compute; reflexivity | reflexivity | reflexivity].
  - eapply (natural_end_policy (step playingFirst LoopClick) 0);
      [vm_compute; reflexivity | reflexivity | reflexivity].
  - eapply (natural_end_policy playingFirst 0);
      [vm_compute; reflexivity | reflexivity | reflexivity].
Defined.

(** ** The index stays in range *)

Lemma advance_index r s :
  playlist s <> [] ->
  let n := Z.of_nat (length (playlist s)) in
  currentIndex (step s (NextClick r))
    = (if shuffle s then floor_scaled r n else js_rem (currentIndex s + 1) n) /\
  currentIndex (step s (PrevClick r))
    = (if shuffle s then floor_scaled r n else js_rem (currentIndex s - 1 + n) n).
Proof.
  intros Hne n. unfold step. cbn [dispatch]. unfold playNext, playPrevious.
  destruct (length (playlist s) =? 0)%nat eqn:Hlen.
  { apply length_eqb_0 in Hlen. contradiction. }
  split; destruct (shuffle s);
    match goal with
    | |- context [(loadMedia ?f >> _) ?s1] =>
        destruct (loadMedia_frame f s1) as (_ & Hi & _);
        unfold andThen, run; destruct (loadMedia f s1); cbn in Hi |- *;
        rewrite Hi; reflexivity
    end.
Qed.

Lemma reachable_after s evs :
  reachable s -> Forall wellFormed evs -> reachable (after s evs).
Proof.
  intros Hs Hevs. revert s Hs. unfold after.
  induction Hevs as [|ev evs Hev _ IH]; intros s Hs; cbn; [exact Hs|].
  apply IH, reach_step; assumption.
Qed.

(** C7, as the code has it.  The claim is that [currentIndex] names an
    item whenever the playlist is not empty.  [updatePlaylist] writes the
    name of a file into the markup of its entry as it is, so a name can
    bring a button of its own, and it is that button which gets the
    listener of the entry.  In the session below two songs are chosen, the
    first of them named [x<button data-idx=7>y]: the index is 0 and the
    listing shows both.  One click on the button in the first entry leaves
    the index at 7 on a playlist of two items, with nothing loaded. *)
Theorem injected_button_leaves_index_out_of_range :
  let s0 := after fresh [FilesChosen [decoy; song "b"]] in
  let s := step s0 (PlaylistButtonClick 0) in
  isMediaFile decoy = true /\
  playlist s0 = [decoy; song "b"] /\ currentIndex s0 = 0 /\
  playlistEl s0 = ViewItems [File.name decoy; "b"] 0 /\
  injectedIdx (File.name decoy) = Some 7 /\
  playlist s = [decoy; song "b"] /\ currentIndex s = 7 /\
  currentMedia s = None /\
  ~ indexInRange s.
Proof.
  cbn zeta. repeat split; try (vm_compute; reflexivity).
  intros Hrange.
  assert (Hne : playlist (step (after fresh [FilesChosen [decoy; song "b"]])
                            (PlaylistButtonClick 0)) <> [])
    by (vm_compute; discriminate).
  specialize (Hrange Hne). vm_compute in Hrange.
  destruct Hrange as [_ Hlt]. discriminate Hlt.
Qed.

(** ** Seeking *)

Lemma num_ltb_Fin a b : num_ltb (Fin a) (Fin b) = true <-> (a < b)%Q.
Proof. unfold num_ltb. rewrite Qlt_alt. destruct (a ?= b)%Q; split; congruence. Qed.

Lemma num_ltb_Fin_false a b : num_ltb (Fin a) (Fin b) = false <-> (b <= a)%Q.
Proof.
  split.
  - intros H. apply Qnot_lt_le. intros Hlt. apply num_ltb_Fin in Hlt. congruence.
  - intros H. destruct (num_ltb (Fin a) (Fin b)) eqn:E; [|reflexivity].
    apply num_ltb_Fin in E. exfalso. apply (Qlt_irrefl a).
    eapply Qlt_le_trans; eassumption.
Qed.

Lemma clamp01_Fin q :
  clamp01 (Fin q)
  = if num_ltb (Fin q) (Fin 1)
    then (if num_ltb (Fin 0) (Fin q) then Fin q else Fin 0)
    else Fin 1.
Proof.
  unfold clamp01, Math_min, Math_max.
  destruct (num_ltb (Fin q) (Fin 1)); reflexivity.
Qed.

Lemma clamp01_below x : num_ltb x (Fin 0) = true -> clamp01 x = Fin 0.
Proof.
  destruct x as [ | | |q]; try discriminate; [reflexivity|].
  intros Hq0. apply num_ltb_Fin in Hq0. rewrite clamp01_Fin.
  assert (H1 : num_ltb (Fin q) (Fin 1) = true).
  { apply num_ltb_Fin. eapply Qlt_trans; [exact Hq0 | reflexivity]. }
  assert (H0 : num_ltb (Fin 0) (Fin q) = false).
  { apply num_ltb_Fin_false. apply Qlt_le_weak, Hq0. }
  rewrite H1, H0. reflexivity.
Qed.

Lemma clamp01_above x : num_ltb (Fin 1) x = true -> clamp01 x = Fin 1.
Proof.
  destruct x as [ | | |q]; try discriminate; [reflexivity|].
  intros H1q. apply num_ltb_Fin in H1q. rewrite clamp01_Fin.
  assert (H1 : num_ltb (Fin q) (Fin 1) = false).
  { apply num_ltb_Fin_false. apply Qlt_le_weak, H1q. }
  rewrite H1. reflexivity.
Qed.

Lemma clamp01_within q :
  (0 <= q)%Q -> (q <= 1)%Q -> exists q', clamp01 (Fin q) = Fin q' /\ (q' == q)%Q.
Proof.
  intros H0 H1. rewrite clamp01_Fin.
  destruct (num_ltb (Fin q) (Fin 1)) eqn:E1.
  - destruct (num_ltb (Fin 0) (Fin q)) eqn:E0.
    + exists q. split; reflexivity.
    + apply num_ltb_Fin_false in E0. exists 0%Q. split; [reflexivity|].
      apply Qle_antisym; assumption.
  - apply num_ltb_Fin_false in E1. exists 1%Q. split; [reflexivity|].
    apply Qle_antisym; assumption.
Qed.

(** Whatever goes in, what comes out is in the unit interval, unless it is
    [NaN] that went in. *)
Lemma clamp01_range x :
  x <> NaN -> exists q, clamp01 x = Fin q /\ (0 <= q)%Q /\ (q <= 1)%Q.
Proof.
  intros Hx. destruct x as [ | | |q]; [congruence | | |].
  - exists 1%Q. repeat split; vm_compute; discriminate.
  - exists 0%Q. repeat split; vm_compute; discriminate.
  - destruct (Qlt_le_dec q 0) as [Hneg|Hpos].
    + exists 0%Q. split; [|split; vm_compute; discriminate].
      apply clamp01_below, num_ltb_Fin, Hneg.
    + destruct (Qlt_le_dec 1 q) as [Hbig|Hsmall].
      * exists 1%Q. split; [|split; vm_compute; discriminate].
        apply clamp01_above, num_ltb_Fin, Hbig.
      * destruct (clamp01_within q Hpos Hsmall) as (q' & Hq' & Heq).
        exists q'. split; [exact Hq'|]. rewrite Heq. split; assumption.
Qed.

Lemma clamp01_Fin_range x q : clamp01 x = Fin q -> (0 <= q)%Q /\ (q <= 1)%Q.
Proof.
  intros Hq. assert (Hx : x <> NaN) by (intros ->; discriminate Hq).
  destruct (clamp01_range x Hx) as (q' & Hq' & Hrange).
  rewrite Hq in Hq'. injection Hq' as ->. exact Hrange.
Qed.

Lemma updateProgress_media s : currentMedia (updateProgress s) = currentMedia s.
Proof.
  unfold updateProgress, assignWidth.
  destruct (currentMedia s) as [el|] eqn:Hm; [|exact Hm].
  destruct (tagName el); try exact Hm;
    match goal with
    | |- context [num_mul ?a ?b] => destruct (num_mul a b) as [| | |q]; try exact Hm
    end;
    destruct (Qle_bool 0 q); exact Hm.
Qed.

(** Where a click on the bar, or the end of a drag, puts the element. *)
Lemma seek_position s e el d q :
  currentMedia s = Some el -> isAudioOrVideo el = true -> duration el = Fin d ->
  clamp01 (pointerFraction e) = Fin q ->
  position (step s (ProgressClick e)) = Some (q * d)%Q /\
  (thumbDragging s = true -> position (step s (PointerUp e)) = Some (q * d)%Q).
Proof.
  intros Hm Hav Hd Hq. unfold step, position. cbn [dispatch].
  unfold seek, endThumbDrag. rewrite Hm. cbn [currentMedia set_thumbDragging].
  unfold isAudioOrVideo in Hav.
  split; [|intros ->; cbn [negb currentMedia set_thumbDragging]; rewrite Hm].
  - destruct (tagName el) eqn:Htag; [discriminate| |];
      rewrite Hq, Hd; unfold andThen, assignCurrentTime, run;
      cbn -[updateProgress]; rewrite Hm; cbn -[updateProgress];
      rewrite updateProgress_media; reflexivity.
  - destruct (tagName el) eqn:Htag; [discriminate| |];
      rewrite Hq, Hd; unfold assignCurrentTime; cbn; rewrite Hm; reflexivity.
Qed.

(** C8.  Both a click on the progress bar ([seek]) and the end of a drag
    ([endThumbDrag]) clamp the fraction before they multiply it by the
    duration: a fraction below 0 lands at [0 * duration], a fraction above
    1 at [1 * duration], a fraction in between is used as it is. *)
Theorem seek_and_scrub_clamp (s : State) (e : Pointer) (el : Element) (d : Q) :
  currentMedia s = Some el -> isAudioOrVideo el = true -> duration el = Fin d ->
  let x := pointerFraction e in
  (num_ltb x (Fin 0) = true ->
     clamp01 x = Fin 0 /\
     position (step s (ProgressClick e)) = Some (0 * d)%Q /\
     (thumbDragging s = true -> position (step s (PointerUp e)) = Some (0 * d)%Q)) /\
  (num_ltb (Fin 1) x = true ->
     clamp01 x = Fin 1 /\
     position (step s (ProgressClick e)) = Some (1 * d)%Q /\
     (thumbDragging s = true -> position (step s (PointerUp e)) = Some (1 * d)%Q)) /\
  (forall q, x = Fin q -> (0 <= q)%Q -> (q <= 1)%Q ->
     exists q', (q' == q)%Q /\ clamp01 x = Fin q' /\
     position (step s (ProgressClick e)) = Some (q' * d)%Q /\
     (thumbDragging s = true -> position (step s (PointerUp e)) = Some (q' * d)%Q)).
Proof.
  intros Hm Hav Hd x. split; [|split].
  - intros Hlow. pose proof (clamp01_below x Hlow) as Hc.
    split; [exact Hc | exact (seek_position s e el d 0 Hm Hav Hd Hc)].
  - intros Hhigh. pose proof (clamp01_above x Hhigh) as Hc.
    split; [exact Hc | exact (seek_position s e el d 1 Hm Hav Hd Hc)].
  - intros q Hx H0 H1. destruct (clamp01_within q H0 H1) as (q' & Hc & Heq).
    exists q'. split; [exact Heq|]. rewrite <- Hx in Hc. split; [exact Hc|].
    exact (seek_position s e el d q' Hm Hav Hd Hc).
Qed.

Lemma seek_and_scrub_clamp_witness :
  pointerFraction (pointerAt (-50)) = Fin (-50 / 100) /\
  clamp01 (pointerFraction (pointerAt (-50))) = Fin 0 /\
  position (step threeMinutes (ProgressClick (pointerAt (-50)))) = Some (0 * 180)%Q /\
  pointerFraction (pointerAt 170) = Fin (170 / 100) /\
  clamp01 (pointerFraction (pointerAt 170)) = Fin 1 /\
  position (step (step threeMinutes ThumbDown) (PointerUp (pointerAt 170)))
    = Some (1 * 180)%Q.
Proof.
  split; [reflexivity|].
  assert (Hlow : forall el, currentMedia threeMinutes = Some el ->
                   isAudioOrVideo el = true -> duration el = Fin 180 ->
                   clamp01 (pointerFraction (pointerAt (-50))) = Fin 0 /\
                   position (step threeMinutes (ProgressClick (pointerAt (-50))))
                     = Some (0 * 180)%Q).
  { intros el Hm Hav Hd.
    destruct (seek_and_scrub_clamp threeMinutes (pointerAt (-50)) el 180 Hm Hav Hd)
      as (Hl & _).
    destruct (Hl eq_refl) as (Hc & Hp & _). split; assumption. }
  assert (Hhigh : forall el, currentMedia (step threeMinutes ThumbDown) = Some el ->
                   isAudioOrVideo el = true -> duration el = Fin 180 ->
                   clamp01 (pointerFraction (pointerAt 170)) = Fin 1 /\
                   position (step (step threeMinutes ThumbDown) (PointerUp (pointerAt 170)))
                     = Some (1 * 180)%Q).
  { intros el Hm Hav Hd.
    destruct (seek_and_scrub_clamp (step threeMinutes ThumbDown) (pointerAt 170) el 180 Hm Hav Hd)
      as (_ & Hh & _).
    destruct (Hh eq_refl) as (Hc & _ & Hp). split; [exact Hc | exact (Hp eq_refl)]. }
  destruct (Hlow _ eq_refl eq_refl eq_refl) as [Hc0 Hp0].
  destruct (Hhigh _ eq_refl eq_refl eq_refl) as [Hc1 Hp1].
  split; [exact Hc0|]. split; [exact Hp0|]. split; [reflexivity|].
  split; [exact Hc1 | exact Hp1].
Defined.

(** ** Startup *)

Lemma digits_value_string_of_uint (d : Decimal.uint) (acc : Z) :
  digits_value acc (NilEmpty.string_of_uint d) = Some (uint_value acc d).
Proof.
  revert acc. induction d; intros acc; cbn [NilEmpty.string_of_uint uint_value];
    [reflexivity | ..]; cbn -[Z.mul Z.add]; apply IHd.
Qed.

Lemma uint_value_pos (d : Decimal.uint) (p : positive) :
  uint_value (Z.pos p) d = Z.pos (Pos.of_uint_acc d p).
Proof.
  revert p. induction d; intros p; cbn [uint_value Pos.of_uint_acc];
    [reflexivity | ..];
    match goal with
    | |- uint_value ?a _ = Z.pos (Pos.of_uint_acc _ ?q) =>
        replace a with (Z.pos q) by lia; apply IHd
    end.
Qed.

Lemma uint_value_0 (d : Decimal.uint) : uint_value 0 d = Z.of_uint d.
Proof.
  unfold Z.of_uint. induction d; cbn [uint_value Pos.of_uint];
    [reflexivity | exact IHd | ..];
    cbn -[uint_value Pos.of_uint_acc]; apply uint_value_pos.
Qed.

Lemma digits_value_NilZero (d : Decimal.uint) :
  digits_value 0 (NilZero.string_of_uint d) = Some (Z.of_uint d).
Proof.
  unfold NilZero.string_of_uint. destruct d; [reflexivity | ..];
    rewrite digits_value_string_of_uint, uint_value_0; reflexivity.
Qed.

Lemma Number_unsigned (d : Decimal.uint) :
  Number (NilZero.string_of_uint d) = Some (Z.of_uint d).
Proof.
  rewrite <- digits_value_NilZero.
  unfold NilZero.string_of_uint. destruct d; reflexivity.
Qed.

Lemma Number_negated (d : Decimal.uint) :
  Number (String "-" (NilZero.string_of_uint d)) = Some (- Z.of_uint d).
Proof.
  pose proof (digits_value_NilZero d) as H.
  unfold NilZero.string_of_uint in *.
  destruct d; cbn [Number NilEmpty.string_of_uint] in *;
    rewrite H; reflexivity.
Qed.

(** [Number(String(z))] is [z], for every integer. *)
Lemma Number_String_of (z : Z) : Number (String_of z) = Some z.
Proof.
  unfold String_of. rewrite <- (DecimalZ.of_to z) at 2.
  destruct (Z.to_int z) as [d|d]; cbn [NilZero.string_of_int Z.of_int].
  - apply Number_unsigned.
  - apply Number_negated.
Qed.

Lemma Number_or_zero (t : string) : Number (str_or t "0") = Number t.
Proof. destruct t; reflexivity. Qed.

(** C9 as stated fails: with the index text "3" in the store, reading the
    store back on startup moves [currentIndex] from 0 to 3. *)
Lemma restoreState_moves_index :
  ump_index remembered = Some "3" /\
  currentIndex (blank remembered 100) = 0 /\
  currentIndex (state_of (restoreState (blank remembered 100))) = 3 /\
  currentIndex (state_of (restoreState (blank remembered 100)))
    <> currentIndex (blank remembered 100).
Proof. vm_compute. repeat split; discriminate. Qed.

(** C9, amended.  Reading the store back on startup changes two things at
    most: the listing, which shows the "previously saved playlist" notice
    when the stored metadata are a non-empty array, and [currentIndex].
    The playlist and every other field are left as they were.  When the
    stored metadata do not parse, nothing changes at all.  When they do,
    [currentIndex] becomes 0 if no index text is stored or the text is
    empty, and becomes the stored index if the text is the decimal text of
    an integer, which is what [saveState] writes. *)
Theorem restoreState_effect (s : State) :
  let s' := state_of (restoreState s) in
  let found := savedPlaylistFound (ump_playlist_meta (localStorage s)) in
  let text := ump_index (localStorage s) in
  s' = set_currentIndex (currentIndex s') (set_playlistEl (playlistEl s') s) /\
  playlist s' = playlist s /\
  currentMedia s' = currentMedia s /\
  isPlaying s' = isPlaying s /\
  loop s' = loop s /\
  shuffle s' = shuffle s /\
  objectUrls s' = objectUrls s /\
  thumbDragging s' = thumbDragging s /\
  localStorage s' = localStorage s /\
  playlistEl s' = match found with
                  | Some true => ViewNotice
                  | _ => playlistEl s
                  end /\
  (found = None -> s' = s) /\
  (found <> None -> text = None \/ text = Some "" -> currentIndex s' = 0) /\
  (found <> None ->
   forall t z, text = Some t -> indexTextOf t z -> currentIndex s' = z).
Proof.
  unfold restoreState, tryCatch.
  destruct (savedPlaylistFound (ump_playlist_meta (localStorage s))) as [[|]|];
    cbn -[Number str_or]; destruct s; cbn -[Number str_or];
    repeat split; try reflexivity; try congruence;
    try (intros _ [->| ->]; reflexivity);
    try (intros _ t z -> [_ ->]; cbn -[Number str_or String_of];
         rewrite Number_or_zero, Number_String_of; reflexivity).
Qed.

Lemma restoreState_effect_witness :
  savedPlaylistFound (ump_playlist_meta remembered) <> None /\
  indexTextOf "3" 3 /\
  currentIndex (state_of (restoreState (blank remembered 100))) = 3 /\
  currentIndex (state_of (restoreState (blank emptyStorage 100))) = 0.
Proof.
  assert (Hfound : savedPlaylistFound (ump_playlist_meta remembered) <> None)
    by (vm_compute; discriminate).
  assert (Htext : indexTextOf "3" 3).
  { split; [unfold safeInteger; lia | reflexivity]. }
  split; [exact Hfound|]. split; [exact Htext|].
  destruct (restoreState_effect (blank remembered 100))
    as (_ & _ & _ & _ & _ & _ & _ & _ & _ & _ & _ & _ & Hint).
  destruct (restoreState_effect (blank emptyStorage 100))
    as (_ & _ & _ & _ & _ & _ & _ & _ & _ & _ & _ & Hzero & _).
  split.
  - apply (Hint Hfound "3" 3); [reflexivity | exact Htext].
  - apply Hzero; [vm_compute; discriminate | left; reflexivity].
Defined.

(** ** Dragging the thumb *)

(** C10.  The end of a drag always leaves [thumbDragging] false: with no
    element, with an image, with an audio or video element, and also when
    the assignment of the position throws.  The start of a drag is what
    sets the flag. *)
Theorem drag_end_clears_flag (s : State) (e : Pointer) :
  thumbDragging (step s ThumbDown) = true /\
  thumbDragging (state_of (endThumbDrag e s)) = false /\
  thumbDragging (step s (PointerUp e)) = false /\
  thumbDragging (step (step s ThumbDown) (PointerUp e)) = false.
Proof.
  assert (H : forall s0, thumbDragging (state_of (endThumbDrag e s0)) = false).
  { intros s0. unfold endThumbDrag.
    destruct (thumbDragging s0) eqn:Hd; cbn; [|exact Hd].
    destruct (currentMedia s0) as [el|]; [|reflexivity].
    destruct (tagName el); try reflexivity;
      unfold assignCurrentTime; branch; reflexivity. }
  split; [reflexivity|]. split; [apply H|]. split; apply H.
Qed.

(** * Further properties of the code *)

(** ** What is saved is what is read back *)

(** X1.  The index that [saveState] writes is the index the next visit
    starts from, and the notice of a saved playlist is shown exactly when
    the playlist that was saved had an item.  Nothing else comes back: the
    next visit starts with an empty playlist and no element. *)
Theorem saved_index_is_restored (s : State) (slider : Q) :
  let s' := constructor (localStorage (saveState s)) slider in
  currentIndex s' = currentIndex s /\
  playlistEl s' = (if (length (playlist s) =? 0)%nat then ViewEmpty else ViewNotice) /\
  playlist s' = [] /\
  currentMedia s' = None /\
  isPlaying s' = false.
Proof.
  unfold constructor, restoreState, tryCatch, saveState.
  cbn -[String_of Number str_or Nat.ltb].
  rewrite Number_or_zero, Number_String_of, length_map.
  destruct (playlist s); cbn; repeat split; reflexivity.
Qed.

(** ** What each event leaves alone *)

(** The flags of the controller after a quiet event. *)
Lemma quiet_flags s ev :
  quiet ev = true ->
  (togglesPlay ev = false -> isPlaying (step s ev) = isPlaying s) /\
  (ev <> LoopClick -> loop (step s ev) = loop s) /\
  (ev <> ShuffleClick -> shuffle (step s ev) = shuffle s) /\
  localStorage (step s ev) = localStorage s.
Proof.
  intros Hq. unfold step.
  destruct ev; try discriminate Hq; cbn [dispatch togglesPlay];
    try (destruct key); do 2 unfold_handlers;
    branch; cbn; repeat split; intros; congruence || reflexivity.
Qed.

Lemma sameModes_refl s : sameModes s s.
Proof. split; reflexivity. Qed.

Lemma sameModes_trans s1 s2 s3 : sameModes s1 s2 -> sameModes s2 s3 -> sameModes s1 s3.
Proof. intros [] []. split; congruence. Qed.

Lemma andThen_modes (h k : Handler) s :
  sameModes s (state_of (h s)) ->
  (forall s1, sameModes s1 (state_of (k s1))) ->
  sameModes s (state_of ((h >> k) s)).
Proof.
  intros Hh Hk. unfold andThen. destruct (h s) as [s1|s1]; cbn in *; [|exact Hh].
  eapply sameModes_trans; [exact Hh | apply Hk].
Qed.

Lemma loadMedia_modes file s : sameModes s (state_of (loadMedia file s)).
Proof. load_cases; split; reflexivity. Qed.

Lemma updatePlaylist_modes s : sameModes s (updatePlaylist s).
Proof. unfold updatePlaylist. branch; split; reflexivity. Qed.

Lemma loadThenSave_modes file s :
  sameModes s (state_of ((loadMedia file >> run saveState) s)).
Proof.
  apply andThen_modes; [apply loadMedia_modes | intros; split; reflexivity].
Qed.

Lemma loadThenSave_playlist file s :
  playlist (state_of ((loadMedia file >> run saveState) s)) = playlist s.
Proof.
  destruct (loadMedia_frame file s) as (Hp & _). unfold andThen, run.
  destruct (loadMedia file s); cbn in *; exact Hp.
Qed.

Lemma handleFiles_modes files s : sameModes s (state_of (handleFiles files s)).
Proof.
  unfold handleFiles. branch; try (split; reflexivity).
  - unfold andThen, run, updatePlaylist, saveState. branch; split; reflexivity.
  - unfold andThen at 1. unfold andThen at 1. unfold run at 1. cbn beta iota.
    match goal with
    | |- context [loadMedia ?f ?s1] =>
        pose proof (loadMedia_modes f s1) as H;
        destruct (loadMedia f s1) as [s2|s2]; cbn in H |- *
    end.
    + eapply sameModes_trans; [|eapply sameModes_trans; [exact H|]].
      * split; reflexivity.
      * unfold andThen, run, updatePlaylist, saveState. branch; split; reflexivity.
    + eapply sameModes_trans; [|exact H]. split; reflexivity.
Qed.

Lemma playNext_modes r s : sameModes s (state_of (playNext r s)).
Proof.
  unfold playNext. destruct (length (playlist s) =? 0)%nat; [apply sameModes_refl|].
  destruct (shuffle s);
    (eapply sameModes_trans; [|apply loadThenSave_modes]; split; reflexivity).
Qed.

Lemma playPrevious_modes r s : sameModes s (state_of (playPrevious r s)).
Proof.
  unfold playPrevious. destruct (length (playlist s) =? 0)%nat; [apply sameModes_refl|].
  destruct (shuffle s);
    (eapply sameModes_trans; [|apply loadThenSave_modes]; split; reflexivity).
Qed.

Lemma playNext_playlist r s : playlist (state_of (playNext r s)) = playlist s.
Proof.
  unfold playNext. destruct (length (playlist s) =? 0)%nat; [reflexivity|].
  destruct (shuffle s); rewrite loadThenSave_playlist; reflexivity.
Qed.

Lemma playPrevious_playlist r s : playlist (state_of (playPrevious r s)) = playlist s.
Proof.
  unfold playPrevious. destruct (length (playlist s) =? 0)%nat; [reflexivity|].
  destruct (shuffle s); rewrite loadThenSave_playlist; reflexivity.
Qed.

Lemma playlistItemClick_modes i s : sameModes s (state_of (playlistItemClick i s)).
Proof.
  unfold playlistItemClick. unfold andThen at 1. unfold run at 1.
  eapply sameModes_trans; [|apply loadThenSave_modes]. split; reflexivity.
Qed.

Lemma playlistItemClick_playlist i s :
  playlist (state_of (playlistItemClick i s)) = playlist s.
Proof.
  unfold playlistItemClick. unfold andThen at 1. unfold run at 1.
  exact (loadThenSave_playlist
           (item (playlist (set_currentIndex i s)) i) (set_currentIndex i s)).
Qed.

Lemma revokeAll_modes (l : list Url) s : sameModes s (foldr revokeObjectURL s l).
Proof.
  induction l as [|u l IH]; cbn; [apply sameModes_refl|].
  destruct IH. split; assumption.
Qed.

Lemma cleanupUrls_modes s : sameModes s (state_of (cleanupUrls s)).
Proof.
  unfold cleanupUrls, run. cbn.
  destruct (revokeAll_modes (elements (objectUrls s)) s). split; assumption.
Qed.

Lemma onMediaEnded_modes r s : sameModes s (state_of (onMediaEnded r s)).
Proof.
  unfold onMediaEnded. destruct (loop s) eqn:Hl; [|apply playNext_modes].
  unfold andThen, run, assignCurrentTime. branch; split; cbn; congruence || reflexivity.
Qed.

Lemma onMediaEnded_playlist r s : playlist (state_of (onMediaEnded r s)) = playlist s.
Proof.
  unfold onMediaEnded. destruct (loop s); [|apply playNext_playlist].
  unfold andThen, run, assignCurrentTime. branch; reflexivity.
Qed.

(** What an event does to the playlist and to the flags. *)
Lemma step_frame s ev :
  playlist (step s ev) = (playlist s ++ added ev)%list /\
  (togglesPlay ev = false -> isPlaying (step s ev) = isPlaying s) /\
  (ev <> LoopClick -> loop (step s ev) = loop s) /\
  (ev <> ShuffleClick -> shuffle (step s ev) = shuffle s).
Proof.
  destruct (quiet ev) eqn:Hq.
  { destruct (quiet_flags s ev Hq) as (Hp & Hl & Hs & _).
    pose proof (core_playlist _ _ (quiet_core s ev Hq)) as Hpl.
    repeat split; try assumption.
    rewrite Hpl. destruct ev; try discriminate Hq; cbn; rewrite app_nil_r; reflexivity. }
  assert (Hmodes : sameModes s (step s ev) ->
                   (togglesPlay ev = false -> isPlaying (step s ev) = isPlaying s) /\
                   (ev <> LoopClick -> loop (step s ev) = loop s) /\
                   (ev <> ShuffleClick -> shuffle (step s ev) = shuffle s)).
  { intros []. repeat split; intros; assumption. }
  unfold step in *. destruct ev; try discriminate Hq; cbn [dispatch added] in *.
  - split; [|apply Hmodes, handleFiles_modes].
    destruct (List.filter isMediaFile files) eqn:Hf.
    + unfold handleFiles. rewrite Hf. cbn. rewrite app_nil_r. reflexivity.
    + rewrite <- Hf. apply handleFiles_core_fields. rewrite Hf. discriminate.
  - split; [|apply Hmodes, playPrevious_modes].
    rewrite playPrevious_playlist, app_nil_r. reflexivity.
  - split; [|apply Hmodes, playNext_modes].
    rewrite playNext_playlist, app_nil_r. reflexivity.
  - destruct (clickedIdx (playlistEl s) idx) as [i|].
    + split; [|apply Hmodes, playlistItemClick_modes].
      rewrite playlistItemClick_playlist, app_nil_r. reflexivity.
    + split; [rewrite app_nil_r; reflexivity | apply Hmodes, sameModes_refl].
  - split; [|apply Hmodes, onMediaEnded_modes].
    rewrite onMediaEnded_playlist, app_nil_r. reflexivity.
  - split; [|apply Hmodes, cleanupUrls_modes].
    destruct (revokeAll_fields (elements (objectUrls s)) s) as (_ & _ & _ & Hp & _).
    unfold cleanupUrls, run. cbn. rewrite Hp, app_nil_r. reflexivity.
Qed.

(** X2.  The playlist only ever grows at its end, and only a choice of
    files makes it grow: every other event leaves it as it is, whatever the
    state.  No event removes or reorders an item. *)
Theorem playlist_append_only (s : State) (ev : Event) :
  playlist (step s ev) = (playlist s ++ added ev)%list /\
  (forall (i : nat) (f : File.t),
      playlist s !! i = Some f -> playlist (step s ev) !! i = Some f) /\
  (length (playlist s) <= length (playlist (step s ev)))%nat.
Proof.
  destruct (step_frame s ev) as [Hp _]. rewrite Hp. repeat split.
  - intros i f Hf. apply lookup_app_l_Some, Hf.
  - rewrite length_app. lia.
Qed.

(** X3.  [isPlaying] is written by [togglePlay] alone: an event that is
    neither a click on the play button nor the space key leaves the flag as
    it was.  In particular loading another item, the end of an item, a
    media error and a rejected request to play all leave it. *)
Theorem isPlaying_written_by_togglePlay_only (s : State) (ev : Event) :
  togglesPlay ev = false -> isPlaying (step s ev) = isPlaying s.
Proof. apply (step_frame s ev). Qed.

Lemma isPlaying_written_by_togglePlay_only_witness :
  isPlaying (step playingFirst (Ended 0)) = isPlaying playingFirst.
Proof.
  apply (isPlaying_written_by_togglePlay_only playingFirst (Ended 0)). reflexivity.
Defined.

(** X4.  [loop] and [shuffle] change only through their own buttons, each
    press inverts its flag, and two presses in a row give back the state
    exactly. *)
Theorem mode_flags_are_toggles (s : State) (ev : Event) :
  (ev <> LoopClick -> loop (step s ev) = loop s) /\
  (ev <> ShuffleClick -> shuffle (step s ev) = shuffle s) /\
  loop (step s LoopClick) = negb (loop s) /\
  shuffle (step s ShuffleClick) = negb (shuffle s) /\
  step (step s LoopClick) LoopClick = s /\
  step (step s ShuffleClick) ShuffleClick = s.
Proof.
  destruct (step_frame s ev) as (_ & _ & Hl & Hs).
  repeat split; try assumption;
    destruct s; unfold step; cbn; rewrite negb_involutive; reflexivity.
Qed.

Lemma mode_flags_are_toggles_witness :
  loop (step playingFirst (NextClick 0)) = loop playingFirst /\
  shuffle (step playingFirst LoopClick) = shuffle playingFirst.
Proof.
  split.
  - apply (mode_flags_are_toggles playingFirst (NextClick 0)). discriminate.
  - apply (mode_flags_are_toggles playingFirst LoopClick). discriminate.
Defined.

(** ** Lifting a property of the state through the handlers that load *)

Section Lifting.

Variable P : State -> Prop.

Hypothesis P_load : forall file s, P s -> P (state_of (loadMedia file s)).
Hypothesis P_index : forall i s, P s -> P (set_currentIndex i s).
Hypothesis P_playlist : forall l s, P s -> P (set_playlist l s).
Hypothesis P_listing : forall s, P s -> P (updatePlaylist s).
Hypothesis P_save : forall s, P s -> P (saveState s).
Hypothesis P_error : forall msg s, P s -> P (showError msg s).
Hypothesis P_quiet : forall s ev, quiet ev = true -> P s -> P (step s ev).
Hypothesis P_replay :
  forall s, P s ->
    P (state_of ((assignCurrentTime (Fin 0) >>
         run (fun s => set_currentMedia (option_map el_play (currentMedia s)) s)) s)).

Lemma lift_loadThenSave file s :
  P s -> P (state_of ((loadMedia file >> run saveState) s)).
Proof.
  intros Hs. pose proof (P_load file s Hs) as H. unfold andThen, run.
  destruct (loadMedia file s); cbn in *; [apply P_save|]; exact H.
Qed.

Lemma lift_handleFiles files s : P s -> P (state_of (handleFiles files s)).
Proof.
  intros Hs. unfold handleFiles. branch.
  - apply P_error, Hs.
  - apply P_playlist, Hs.
  - unfold andThen, run. cbn. apply P_save, P_listing, P_playlist, Hs.
  - unfold andThen at 1. unfold andThen at 1. unfold run at 1. cbn beta iota.
    match goal with
    | |- context [loadMedia ?f ?s1] =>
        assert (H : P (state_of (loadMedia f s1)))
          by (apply P_load, P_index, P_playlist, Hs);
        destruct (loadMedia f s1) as [s2|s2]; cbn in H |- *
    end.
    + unfold andThen, run. cbn. apply P_save, P_listing, H.
    + exact H.
Qed.

Lemma lift_playNext r s : P s -> P (state_of (playNext r s)).
Proof.
  intros Hs. unfold playNext.
  destruct (length (playlist s) =? 0)%nat; [exact Hs|].
  destruct (shuffle s); apply lift_loadThenSave, P_index, Hs.
Qed.

Lemma lift_playPrevious r s : P s -> P (state_of (playPrevious r s)).
Proof.
  intros Hs. unfold playPrevious.
  destruct (length (playlist s) =? 0)%nat; [exact Hs|].
  destruct (shuffle s); apply lift_loadThenSave, P_index, Hs.
Qed.

Lemma lift_playlistItemClick i s : P s -> P (state_of (playlistItemClick i s)).
Proof.
  intros Hs. unfold playlistItemClick. unfold andThen at 1. unfold run at 1.
  apply (lift_loadThenSave (item (playlist (set_currentIndex i s)) i)).
  apply P_index, Hs.
Qed.

Lemma lift_onMediaEnded r s : P s -> P (state_of (onMediaEnded r s)).
Proof.
  intros Hs. unfold onMediaEnded. destruct (loop s); [|apply lift_playNext, Hs].
  destruct (currentMedia s) as [el|]; [|exact Hs].
  destruct (tagName el); try exact Hs; apply P_replay, Hs.
Qed.

(** [P] survives every event that is not the unload. *)
Lemma lift_step s ev : ev <> BeforeUnload -> P s -> P (step s ev).
Proof.
  intros Hev Hs. destruct (quiet ev) eqn:Hq; [apply P_quiet; assumption|].
  unfold step. destruct ev; try discriminate Hq; cbn [dispatch]; try congruence.
  - apply lift_handleFiles, Hs.
  - apply lift_playPrevious, Hs.
  - apply lift_playNext, Hs.
  - destruct (clickedIdx (playlistEl s) idx) as [i|]; [|exact Hs].
    apply lift_playlistItemClick, Hs.
  - apply lift_onMediaEnded, Hs.
Qed.

End Lifting.

(** ** The filter and the loader agree *)

Lemma loadMedia_supported_no_error f s tag :
  tagOfType (majorType f) = Some tag ->
  errorMessage (state_of (loadMedia (Some f) s)) = None.
Proof.
  intros Htag. unfold loadMedia. rewrite Htag.
  unfold showError, clearError, updatePlaylist, createObjectURL.
  branch; reflexivity.
Qed.

Lemma step_allMedia s ev : allMedia s -> allMedia (step s ev).
Proof.
  unfold allMedia. intros H. destruct (step_frame s ev) as [Hp _]. rewrite Hp.
  apply Forall_app. split; [exact H|].
  destruct ev; cbn; try constructor.
  apply List.Forall_forall. intros f Hf. apply List.filter_In in Hf. tauto.
Qed.

Lemma constructor_fields store slider :
  playlist (constructor store slider) = [] /\
  currentMedia (constructor store slider) = None /\
  objectUrls (constructor store slider) = ∅ /\
  blobUrls (constructor store slider) = ∅ /\
  isPlaying (constructor store slider) = false.
Proof.
  unfold constructor, restoreState, tryCatch. cbn.
  destruct (savedPlaylistFound (ump_playlist_meta store)) as [[|]|];
    cbn; repeat split; reflexivity.
Qed.

Lemma reachable_allMedia s : reachable s -> allMedia s.
Proof.
  induction 1 as [store slider | s ev _ IH _].
  - unfold allMedia. destruct (constructor_fields store slider) as [-> _]. constructor.
  - apply step_allMedia, IH.
Qed.

(** X5.  What the filter of [handleFiles] lets through, [loadMedia] can
    show: every item of the playlist has a type that starts with
    [video/], [audio/] or [image/], its major type maps to an element tag,
    and loading it leaves the error panel empty.  The "Unsupported file
    type" branch of [loadMedia] is never taken for an item of the
    playlist. *)
Theorem playlist_items_are_loadable (s : State) (f : File.t) :
  reachable s -> In f (playlist s) ->
  isMediaFile f = true /\
  (exists tag, tagOfType (majorType f) = Some tag) /\
  (forall s0, errorMessage (state_of (loadMedia (Some f) s0)) = None).
Proof.
  intros Hr Hin. pose proof (reachable_allMedia s Hr) as Hall.
  unfold allMedia in Hall. rewrite List.Forall_forall in Hall.
  pose proof (Hall f Hin) as Hf.
  destruct (isMediaFile_supported f Hf) as [tag Htag].
  split; [exact Hf|]. split; [exists tag; exact Htag|].
  intros s0. apply (loadMedia_supported_no_error f s0 tag Htag).
Qed.

Lemma playlist_items_are_loadable_witness :
  reachable playingFirst /\ In (song "b") (playlist playingFirst) /\
  isMediaFile (song "b") = true.
Proof.
  assert (R : reachable playingFirst).
  { apply reachable_after; [apply reach_init | repeat constructor]. }
  assert (Hin : In (song "b") (playlist playingFirst)).
  { vm_compute. right. left. reflexivity. }
  split; [exact R|]. split; [exact Hin|].
  apply (playlist_items_are_loadable playingFirst (song "b") R Hin).
Defined.

(** ** Object URLs over a whole session *)

(** What a quiet event can do to the element: it is the same element, with
    the same source, and its volume is one the platform accepts if it was
    changed at all. *)
Lemma quiet_element s ev el' :
  quiet ev = true -> currentMedia (step s ev) = Some el' ->
  exists el, currentMedia s = Some el /\ src el' = src el /\
             tagName el' = tagName el /\
             (volume el' = volume el \/ volumeInRange (volume el') = true).
Proof.
  intros Hq. unfold step.
  destruct ev; try discriminate Hq; cbn [dispatch];
    try (destruct key); do 2 unfold_handlers;
    branch; cbn;
    repeat match goal with
           | H : currentMedia s = _ |- context [currentMedia s] => rewrite H
           end;
    intros Hel; simplify_eq;
    eexists; (split; [reflexivity || eassumption|]); cbn; auto.
Qed.

Lemma loadMedia_element file s el' :
  currentMedia (state_of (loadMedia file s)) = Some el' ->
  src el' = urlCounter s /\
  src el' ∈ blobUrls (state_of (loadMedia file s)) /\
  src el' ∈ objectUrls (state_of (loadMedia file s)) /\
  (volume el' = 1%Q \/ volumeInRange (volume el') = true).
Proof.
  load_cases; intros Hel; try discriminate Hel; injection Hel as <-; cbn;
    (split; [reflexivity|]); (split; [set_solver|]); (split; [set_solver|]); auto.
Qed.

Lemma loadMedia_urlsTracked file s :
  urlsTracked s -> urlsTracked (state_of (loadMedia file s)).
Proof. unfold urlsTracked. load_cases; intros H; rewrite ?H; reflexivity. Qed.

Lemma replay_element s el' :
  currentMedia (state_of ((assignCurrentTime (Fin 0) >>
     run (fun s => set_currentMedia (option_map el_play (currentMedia s)) s)) s))
    = Some el' ->
  exists el, currentMedia s = Some el /\ src el' = src el /\ volume el' = volume el.
Proof.
  unfold andThen, run, assignCurrentTime. branch; cbn;
    repeat match goal with
           | H : currentMedia s = _ |- context [currentMedia s] => rewrite H
           end;
    intros Hel; simplify_eq;
    eexists; (split; [reflexivity || eassumption|]); cbn; auto.
Qed.

Lemma unload_or_not (ev : Event) : ev = BeforeUnload \/ ev <> BeforeUnload.
Proof. destruct ev; (left; reflexivity) || (right; discriminate). Qed.

Lemma step_urlsTracked s ev : urlsTracked s -> urlsTracked (step s ev).
Proof.
  intros Hs. destruct (unload_or_not ev) as [->|Hev].
  - unfold urlsTracked in *. destruct (cleanupUrls_urls s) as [Ho Hb].
    rewrite Ho, Hb, Hs. set_solver.
  - revert Hs. apply lift_step; try assumption; unfold urlsTracked.
    + apply loadMedia_urlsTracked.
    + intros; assumption.
    + intros; assumption.
    + intros s0. unfold updatePlaylist. branch; intros; assumption.
    + intros; assumption.
    + intros; assumption.
    + intros s0 ev0 Hq H. pose proof (quiet_core s0 ev0 Hq) as [].
      congruence.
    + intros s0 H. pose proof (loopReplay_core s0) as []. congruence.
Qed.

Lemma reachable_urlsTracked s : reachable s -> urlsTracked s.
Proof.
  induction 1 as [store slider | s ev _ IH _].
  - unfold urlsTracked.
    destruct (constructor_fields store slider) as (_ & _ & -> & -> & _). reflexivity.
  - apply step_urlsTracked, IH.
Qed.

Lemma loadMedia_urlsIssued file s :
  urlsIssued s -> urlsIssued (state_of (loadMedia file s)).
Proof.
  intros I4.
  assert (Hfresh : forall u : Url,
             u ∈ ({[urlCounter s]} ∪ blobUrls s) ∪ ({[urlCounter s]} ∪ objectUrls s) ->
             (u < S (urlCounter s))%nat).
  { intros u Hu.
    destruct (decide (u = urlCounter s)) as [->|Hneq]; [lia|].
    assert (u ∈ blobUrls s ∪ objectUrls s) as Hin by set_solver.
    apply I4 in Hin. lia. }
  unfold urlsIssued in *. load_cases; assumption.
Qed.

Lemma step_urlsIssued s ev : urlsIssued s -> urlsIssued (step s ev).
Proof.
  intros Hs. destruct (unload_or_not ev) as [->|Hev].
  - unfold urlsIssued in *. destruct (cleanupUrls_urls s) as [Ho Hb].
    assert (Hc : urlCounter (step s BeforeUnload) = urlCounter s).
    { unfold step. cbn [dispatch]. unfold cleanupUrls, run. cbn.
      apply (revokeAll_fields (elements (objectUrls s)) s). }
    rewrite Ho, Hb, Hc. intros u Hu. apply Hs. set_solver.
  - revert Hs. apply lift_step; try assumption; unfold urlsIssued.
    + apply loadMedia_urlsIssued.
    + intros; auto.
    + intros; auto.
    + intros s0. unfold updatePlaylist. branch; intros; auto.
    + intros; auto.
    + intros; auto.
    + intros s0 ev0 Hq H. pose proof (quiet_core s0 ev0 Hq) as [_ _ _ _ Ho Hb Hc].
      intros u. rewrite Ho, Hb, Hc. apply H.
    + intros s0 H. pose proof (loopReplay_core s0) as [_ _ _ _ Ho Hb Hc].
      intros u. rewrite Ho, Hb, Hc. apply H.
Qed.

(** Every URL that is valid or tracked was handed out before, in every
    reachable state. *)
Lemma reachable_urlsIssued s : reachable s -> urlsIssued s.
Proof.
  induction 1 as [store slider | s ev _ IH _].
  - apply constructor_Inv.
  - apply step_urlsIssued, IH.
Qed.

(** X6.  Throughout a session every object URL that is valid is in
    [objectUrls], so the unload leaves none: after [cleanupUrls] no URL
    made by this page is valid any more.  The element itself is left on the
    page. *)
Theorem unload_revokes_everything (s : State) :
  reachable s ->
  blobUrls s = objectUrls s /\
  blobUrls (step s BeforeUnload) = ∅ /\
  objectUrls (step s BeforeUnload) = ∅ /\
  currentMedia (step s BeforeUnload) = currentMedia s.
Proof.
  intros Hr. pose proof (reachable_urlsTracked s Hr) as Ht. unfold urlsTracked in Ht.
  destruct (cleanupUrls_urls s) as [Ho Hb].
  split; [exact Ht|]. split; [rewrite Hb, Ht; set_solver|]. split; [exact Ho|].
  unfold step. cbn [dispatch]. unfold cleanupUrls, run. cbn.
  apply (revokeAll_fields (elements (objectUrls s)) s).
Qed.

Lemma unload_revokes_everything_witness :
  reachable playingFirst /\ blobUrls (step playingFirst BeforeUnload) = ∅.
Proof.
  assert (R : reachable playingFirst).
  { apply reachable_after; [apply reach_init | repeat constructor]. }
  split; [exact R|]. apply (unload_revokes_everything playingFirst R).
Defined.

Lemma step_sourceValid s ev :
  ev <> BeforeUnload -> sourceValid s -> sourceValid (step s ev).
Proof.
  intros Hev. apply lift_step; try assumption; unfold sourceValid.
  - intros file s0 _ el Hel.
    destruct (loadMedia_element file s0 el Hel) as (_ & Hb & Ho & _). split; assumption.
  - intros; auto.
  - intros; auto.
  - intros s0 H. unfold updatePlaylist. branch; exact H.
  - intros; auto.
  - intros; auto.
  - intros s0 ev0 Hq H el' Hel.
    destruct (quiet_element s0 ev0 el' Hq Hel) as (el & Hm & Hsrc & _).
    pose proof (quiet_core s0 ev0 Hq) as [].
    rewrite Hsrc. replace (blobUrls (step s0 ev0)) with (blobUrls s0) by congruence.
    replace (objectUrls (step s0 ev0)) with (objectUrls s0) by congruence.
    apply H, Hm.
  - intros s0 H el' Hel.
    destruct (replay_element s0 el' Hel) as (el & Hm & Hsrc & _).
    pose proof (loopReplay_core s0) as [].
    rewrite Hsrc.
    match goal with
    | |- _ ∈ blobUrls ?t /\ _ ∈ objectUrls ?t =>
        replace (blobUrls t) with (blobUrls s0) by congruence;
        replace (objectUrls t) with (objectUrls s0) by congruence
    end.
    apply H, Hm.
Qed.

(** X7.  As long as the page has not been unloaded, the element on the page
    is backed by a URL that is still valid and still tracked: switching
    items, adding files and every other event never revoke the URL in use.
    The unload does: after it the same element is there and its URL is
    not valid. *)
Theorem source_valid_until_unload
    (store : Storage) (slider : Q) (evs : list Event) (el : Element) :
  Forall (fun ev => ev <> BeforeUnload) evs ->
  let s := after (constructor store slider) evs in
  currentMedia s = Some el ->
  src el ∈ blobUrls s /\ src el ∈ objectUrls s /\
  currentMedia (step s BeforeUnload) = Some el /\
  src el ∉ blobUrls (step s BeforeUnload).
Proof.
  intros Hevs s Hel.
  assert (Hvalid : sourceValid s).
  { subst s. clear Hel. unfold after.
    assert (H0 : sourceValid (constructor store slider)).
    { intros el0 Hel0.
      destruct (constructor_fields store slider) as (_ & Hm & _). congruence. }
    revert H0. generalize (constructor store slider).
    induction Hevs as [|ev evs Hev _ IH]; intros s0 H0; cbn; [exact H0|].
    apply IH, step_sourceValid; assumption. }
  destruct (Hvalid el Hel) as [Hb Ho].
  split; [exact Hb|]. split; [exact Ho|]. split.
  - rewrite <- Hel. unfold step. cbn [dispatch]. unfold cleanupUrls, run. cbn.
    apply (revokeAll_fields (elements (objectUrls s)) s).
  - destruct (cleanupUrls_urls s) as [_ Hb']. rewrite Hb'. set_solver.
Qed.

Lemma source_valid_until_unload_witness :
  Forall (fun ev => ev <> BeforeUnload) threePresses /\
  match currentMedia (after (constructor emptyStorage 100) threePresses) with
  | Some el => src el = 1%nat /\
               src el ∈ blobUrls (after (constructor emptyStorage 100) threePresses)
  | None => False
  end.
Proof.
  assert (Hevs : Forall (fun ev => ev <> BeforeUnload) threePresses)
    by (repeat constructor; discriminate).
  split; [exact Hevs|].
  destruct (currentMedia (after (constructor emptyStorage 100) threePresses))
    as [el|] eqn:Hel; [|vm_compute in Hel; discriminate].
  destruct (source_valid_until_unload emptyStorage 100 threePresses el Hevs Hel) as [Hb _].
  split; [|exact Hb].
  vm_compute in Hel. injection Hel as <-. reflexivity.
Defined.

(** ** Moving through the playlist *)

Lemma playNext_plain r s : shuffle s = false -> playNext r s = playNext 0 s.
Proof. intros H. unfold playNext. rewrite H. reflexivity. Qed.

Lemma playPrevious_plain r s : shuffle s = false -> playPrevious r s = playPrevious 0 s.
Proof. intros H. unfold playPrevious. rewrite H. reflexivity. Qed.

Lemma unitDraw_0 : unitDraw 0.
Proof. split; [vm_compute; discriminate | reflexivity]. Qed.

(** What one press of Next or Previous keeps, without shuffle. *)
Lemma plain_advance_keeps s ev :
  indexInRange s -> playlist s <> [] -> shuffle s = false ->
  (exists r, ev = NextClick r \/ ev = PrevClick r) ->
  indexInRange (step s ev) /\ shuffle (step s ev) = false /\
  playlist (step s ev) = playlist s.
Proof.
  intros HI Hne Hsh (r & Hev).
  destruct (step_frame s ev) as (Hp & _ & _ & Hs).
  assert (Hpl : playlist (step s ev) = playlist s).
  { rewrite Hp. destruct Hev as [->| ->]; cbn; apply app_nil_r. }
  pose proof (length_pos_of_nonempty _ Hne) as Hpos.
  destruct (advance_index r s Hne) as [Hn Hpv]. rewrite Hsh in Hn, Hpv.
  split; [|split; [|exact Hpl]].
  - intros _. rewrite Hpl. destruct Hev as [->| ->].
    + rewrite Hn, next_index_wraps by exact (HI Hne). apply Z.mod_pos_bound. lia.
    + rewrite Hpv, previous_index_wraps by exact (HI Hne). apply Z.mod_pos_bound. lia.
  - rewrite Hs; [exact Hsh|]. destruct Hev as [->| ->]; discriminate.
Qed.

(** X8.  Without shuffle, on a playlist whose index names an item, Next
    and Previous undo each other: pressing one and then the other leaves
    [currentIndex] where it was, at either end of the playlist too. *)
Theorem next_previous_round_trip (s : State) (r r' : Q) :
  indexInRange s -> playlist s <> [] -> shuffle s = false ->
  currentIndex (step (step s (NextClick r)) (PrevClick r')) = currentIndex s /\
  currentIndex (step (step s (PrevClick r)) (NextClick r')) = currentIndex s.
Proof.
  intros HI Hne Hsh.
  pose proof (HI Hne) as Hidx.
  pose proof (length_pos_of_nonempty _ Hne) as Hpos.
  set (n := Z.of_nat (length (playlist s))) in *.
  destruct (advance_index r s Hne) as [Hn Hp]. rewrite Hsh in Hn, Hp. fold n in Hn, Hp.
  split.
  - destruct (plain_advance_keeps s (NextClick r) HI Hne Hsh) as (HI1 & Hsh1 & Hpl1);
      [exists r; left; reflexivity|].
    assert (Hne1 : playlist (step s (NextClick r)) <> []) by (rewrite Hpl1; exact Hne).
    destruct (advance_index r' _ Hne1) as [_ Hp1].
    rewrite Hsh1, Hpl1 in Hp1. fold n in Hp1. rewrite Hp1, Hn.
    rewrite next_index_wraps by exact Hidx.
    rewrite previous_index_wraps by (apply Z.mod_pos_bound; lia).
    rewrite Zminus_mod_idemp_l. replace (currentIndex s + 1 - 1) with (currentIndex s) by lia.
    apply Z.mod_small. exact Hidx.
  - destruct (plain_advance_keeps s (PrevClick r) HI Hne Hsh) as (HI1 & Hsh1 & Hpl1);
      [exists r; right; reflexivity|].
    assert (Hne1 : playlist (step s (PrevClick r)) <> []) by (rewrite Hpl1; exact Hne).
    destruct (advance_index r' _ Hne1) as [Hn1 _].
    rewrite Hsh1, Hpl1 in Hn1. fold n in Hn1. rewrite Hn1, Hp.
    rewrite previous_index_wraps by exact Hidx.
    rewrite next_index_wraps by (apply Z.mod_pos_bound; lia).
    rewrite Zplus_mod_idemp_l. replace (currentIndex s - 1 + 1) with (currentIndex s) by lia.
    apply Z.mod_small. exact Hidx.
Qed.

Lemma playingFirst_indexInRange : indexInRange playingFirst.
Proof. intros _. vm_compute. split; [discriminate | reflexivity]. Qed.

Lemma next_previous_round_trip_witness :
  indexInRange playingFirst /\
  currentIndex (step (step playingFirst (PrevClick 0)) (NextClick 0))
    = currentIndex playingFirst.
Proof.
  assert (Hne : playlist playingFirst <> []) by (vm_compute; discriminate).
  assert (Hsh : shuffle playingFirst = false) by (vm_compute; reflexivity).
  split; [exact playingFirst_indexInRange|].
  destruct (next_previous_round_trip playingFirst 0 0 playingFirst_indexInRange Hne Hsh)
    as [_ H].
  exact H.
Defined.

Lemma after_cons s ev evs : after s (ev :: evs) = after (step s ev) evs.
Proof. reflexivity. Qed.

Lemma presses_of_next (k : nat) (r : Q) (s : State) :
  indexInRange s -> playlist s <> [] -> shuffle s = false ->
  let s' := after s (repeat (NextClick r) k) in
  playlist s' = playlist s /\
  currentIndex s' = (currentIndex s + Z.of_nat k) mod Z.of_nat (length (playlist s)).
Proof.
  revert s. induction k as [|k IH]; intros s HI Hne Hsh.
  - cbn. split; [reflexivity|].
    rewrite Z.add_0_r. symmetry. apply Z.mod_small. apply (HI Hne).
  - cbn [repeat]. rewrite after_cons.
    destruct (plain_advance_keeps s (NextClick r) HI Hne Hsh) as (HI1 & Hsh1 & Hpl1);
      [exists r; left; reflexivity|].
    assert (Hne1 : playlist (step s (NextClick r)) <> []) by (rewrite Hpl1; exact Hne).
    destruct (IH _ HI1 Hne1 Hsh1) as (Hpl' & Hidx').
    split; [rewrite Hpl'; exact Hpl1|].
    rewrite Hidx', Hpl1.
    destruct (advance_index r s Hne) as [Hn _]. rewrite Hsh in Hn. rewrite Hn.
    rewrite next_index_wraps by (apply (HI Hne)).
    rewrite Zplus_mod_idemp_l. f_equal. lia.
Qed.

(** X9.  Without shuffle, on a playlist whose index names an item, Next
    walks the playlist in a circle: after [k] presses the index is
    [(currentIndex + k) mod length], so as many presses as there are items
    bring the index back to where it started. *)
Theorem next_cycles_through_playlist (s : State) (r : Q) (k : nat) :
  indexInRange s -> playlist s <> [] -> shuffle s = false ->
  let n := length (playlist s) in
  currentIndex (after s (repeat (NextClick r) k))
    = (currentIndex s + Z.of_nat k) mod Z.of_nat n /\
  currentIndex (after s (repeat (NextClick r) n)) = currentIndex s /\
  playlist (after s (repeat (NextClick r) k)) = playlist s.
Proof.
  intros HI Hne Hsh n.
  destruct (presses_of_next k r s HI Hne Hsh) as (Hpl & Hidx).
  destruct (presses_of_next n r s HI Hne Hsh) as (_ & Hfull).
  split; [exact Hidx|]. split; [|exact Hpl].
  rewrite Hfull. fold n.
  rewrite <- (Z.mul_1_l (Z.of_nat n)) at 1. rewrite Z_mod_plus_full.
  apply Z.mod_small. apply (HI Hne).
Qed.

Lemma next_cycles_through_playlist_witness :
  indexInRange playingFirst /\
  currentIndex (after playingFirst (repeat (NextClick 0) 2)) = currentIndex playingFirst.
Proof.
  assert (Hne : playlist playingFirst <> []) by (vm_compute; discriminate).
  assert (Hsh : shuffle playingFirst = false) by (vm_compute; reflexivity).
  split; [exact playingFirst_indexInRange|].
  destruct (next_cycles_through_playlist playingFirst 0 2 playingFirst_indexInRange Hne Hsh)
    as (_ & H & _).
  exact H.
Defined.

Lemma item_in_range {A} (l : list A) (i : Z) :
  0 <= i < Z.of_nat (length l) -> exists x, item l i = Some x /\ In x l.
Proof.
  intros Hi. unfold item. destruct (Z.ltb_spec i 0) as [|_]; [lia|].
  destruct (lookup_lt_is_Some_2 l (Z.to_nat i)) as [x Hx]; [lia|].
  exists x. split; [exact Hx|]. apply list_elem_of_In, list_elem_of_lookup. eauto.
Qed.

Lemma loadMedia_mints f s tag :
  tagOfType (majorType f) = Some tag ->
  urlCounter (state_of (loadMedia (Some f) s)) = S (urlCounter s).
Proof.
  intros Htag. unfold loadMedia. rewrite Htag.
  unfold showError, clearError, updatePlaylist, createObjectURL. branch; reflexivity.
Qed.

Lemma loadThenSave_mints f s tag :
  tagOfType (majorType f) = Some tag ->
  urlCounter (state_of ((loadMedia (Some f) >> run saveState) s)) = S (urlCounter s).
Proof.
  intros Htag. pose proof (loadMedia_mints f s tag Htag) as H. unfold andThen, run.
  destruct (loadMedia (Some f) s); cbn in *; exact H.
Qed.

(** X10.  On a playlist of supported files whose index names an item,
    every press of Next or Previous makes one new object URL, also when it
    lands on the item that is shown already: with a single item the index
    stays 0 and the item is loaded anew under a fresh URL. *)
Theorem every_advance_mints_a_url (s : State) (r : Q) :
  allMedia s -> indexInRange s -> playlist s <> [] -> unitDraw r ->
  urlCounter (step s (NextClick r)) = S (urlCounter s) /\
  urlCounter (step s (PrevClick r)) = S (urlCounter s) /\
  (length (playlist s) = 1%nat ->
   currentIndex (step s (NextClick r)) = currentIndex s /\
   currentIndex (step s (PrevClick r)) = currentIndex s).
Proof.
  intros Hall HI Hne Hdraw. unfold allMedia in Hall.
  rewrite List.Forall_forall in Hall.
  pose proof (HI Hne) as Hidx.
  pose proof (length_pos_of_nonempty _ Hne) as Hpos.
  assert (Hlen : (length (playlist s) =? 0)%nat = false).
  { destruct (length (playlist s) =? 0)%nat eqn:E; [|reflexivity].
    apply length_eqb_0 in E. contradiction. }
  assert (Hmint : forall i, 0 <= i < Z.of_nat (length (playlist s)) ->
            urlCounter (state_of ((loadMedia (item (playlist (set_currentIndex i s))
                                                 (currentIndex (set_currentIndex i s)))
                                     >> run saveState) (set_currentIndex i s)))
            = S (urlCounter s)).
  { intros i Hi. cbn [playlist currentIndex set_currentIndex].
    destruct (item_in_range (playlist s) i Hi) as (f & Hf & Hin). rewrite Hf.
    destruct (isMediaFile_supported f (Hall f Hin)) as [tag Htag].
    apply (loadThenSave_mints f (set_currentIndex i s) tag Htag). }
  split; [|split].
  - unfold step. cbn [dispatch]. unfold playNext. rewrite Hlen.
    destruct (shuffle s); apply Hmint.
    + apply floor_scaled_range; assumption.
    + rewrite next_index_wraps by exact Hidx. apply Z.mod_pos_bound. lia.
  - unfold step. cbn [dispatch]. unfold playPrevious. rewrite Hlen.
    destruct (shuffle s); apply Hmint.
    + apply floor_scaled_range; assumption.
    + rewrite previous_index_wraps by exact Hidx. apply Z.mod_pos_bound. lia.
  - intros Hone. destruct (advance_index r s Hne) as [Hn Hp].
    rewrite Hone in Hidx, Hn, Hp. change (Z.of_nat 1) with 1 in *.
    assert (H0 : currentIndex s = 0) by lia.
    assert (Hf : floor_scaled r 1 = 0).
    { pose proof (floor_scaled_range r 1 Hdraw). lia. }
    rewrite Hn, Hp, H0, Hf. unfold js_rem. rewrite !Z.rem_1_r.
    destruct (shuffle s); split; reflexivity.
Qed.

Lemma every_advance_mints_a_url_witness :
  allMedia playingFirst /\ indexInRange playingFirst /\
  urlCounter (step playingFirst (NextClick (1 # 2))) = S (urlCounter playingFirst).
Proof.
  assert (R : reachable playingFirst).
  { apply reachable_after; [apply reach_init | repeat constructor]. }
  assert (Hall : allMedia playingFirst) by (apply reachable_allMedia, R).
  assert (Hne : playlist playingFirst <> []) by (vm_compute; discriminate).
  assert (Hdraw : unitDraw (1 # 2)) by (split; [vm_compute; discriminate | reflexivity]).
  split; [exact Hall|]. split; [exact playingFirst_indexInRange|].
  destruct (every_advance_mints_a_url playingFirst (1 # 2) Hall
              playingFirst_indexInRange Hne Hdraw) as [H _].
  exact H.
Defined.

(** ** Loading *)

(** X11.  A file whose major type is not image, audio or video is refused
    by [loadMedia] with "Unsupported file type", and no object URL is made
    for it; but the element that was on the page is removed all the same,
    so the page is left with no element at all.  A file with an empty type
    is such a file. *)
Theorem unsupported_load_removes_element (s : State) (f : File.t) :
  tagOfType (majorType f) = None ->
  exists s', loadMedia (Some f) s = Done s' /\
    currentMedia s' = None /\
    errorMessage s' = Some "Unsupported file type" /\
    dropZoneHidden s' = false /\
    urlCounter s' = urlCounter s /\
    objectUrls s' = objectUrls s /\
    blobUrls s' = blobUrls s /\
    playlist s' = playlist s /\
    currentIndex s' = currentIndex s /\
    playlistEl s' = playlistEl s.
Proof.
  intros Htag. unfold loadMedia. rewrite Htag. eexists. split; [reflexivity|].
  unfold showError, clearError. branch; repeat split; reflexivity.
Qed.

Lemma unsupported_load_removes_element_witness :
  tagOfType (majorType notes) = None /\
  tagOfType (majorType {| File.name := "x"; File.type := ""; File.size := 0 |}) = None /\
  exists s', loadMedia (Some notes) playingFirst = Done s' /\ currentMedia s' = None.
Proof.
  split; [reflexivity|]. split; [reflexivity|].
  destruct (unsupported_load_removes_element playingFirst notes eq_refl)
    as (s' & Hload & Hm & _).
  exists s'. split; [exact Hload | exact Hm].
Defined.

Lemma filter_head_media (files : list File.t) f rest :
  List.filter isMediaFile files = f :: rest -> isMediaFile f = true.
Proof.
  intros H. assert (Hin : In f (List.filter isMediaFile files)) by (rewrite H; left; reflexivity).
  apply List.filter_In in Hin. tauto.
Qed.

(** A load that goes through: the file is supported and, for audio and
    video, the slider gives a volume the platform accepts. *)
Lemma loadMedia_success f s tag :
  tagOfType (majorType f) = Some tag ->
  volumeInRange (volumeSlider s / 100) = true ->
  exists s1 el,
    loadMedia (Some f) s = Done s1 /\
    currentMedia s1 = Some el /\ tagName el = tag /\ src el = urlCounter s /\
    paused el = true /\ currentTime el = 0%Q /\
    errorMessage s1 = None /\ dropZoneHidden s1 = true.
Proof.
  intros Htag Hvol. unfold loadMedia. rewrite Htag.
  cbn -[volumeInRange Qdiv updatePlaylist].
  destruct (currentMedia s) as [el0|]; [destruct (isAudioOrVideo el0)|];
    cbn -[volumeInRange Qdiv updatePlaylist];
    destruct tag; rewrite ?Hvol;
    do 2 eexists; (split; [reflexivity|]);
    unfold updatePlaylist; branch; repeat split; reflexivity.
Qed.

(** X12.  On a page with nothing loaded, the first batch that has a
    supported file puts the first such file on the page straight away: the
    index is 0, the element has the tag of that file and a fresh URL, it is
    paused at position 0, the error panel is empty and the drop zone is
    hidden. *)
Theorem first_batch_loads_first_file
    (s : State) (files : list File.t) (f : File.t) (rest : list File.t) :
  currentMedia s = None -> playlist s = [] ->
  List.filter isMediaFile files = f :: rest ->
  volumeInRange (volumeSlider s / 100) = true ->
  let s' := step s (FilesChosen files) in
  exists el,
    currentMedia s' = Some el /\
    tagOfType (majorType f) = Some (tagName el) /\
    src el = urlCounter s /\ paused el = true /\ currentTime el = 0%Q /\
    playlist s' = f :: rest /\
    currentIndex s' = 0 /\
    errorMessage s' = None /\ dropZoneHidden s' = true /\
    isPlaying s' = isPlaying s.
Proof.
  intros Hm Hp Hf Hvol s'. subst s'.
  destruct (isMediaFile_supported f (filter_head_media files f rest Hf)) as [tag Htag].
  set (s1 := set_currentIndex 0 (set_playlist (f :: rest) s)).
  destruct (loadMedia_success f s1 tag Htag Hvol)
    as (s2 & el & Hload & Hel & Htn & Hsrc & Hpa & Hct & Herr & Hdz).
  destruct (loadMedia_frame (Some f) s1) as (Hpl & Hidx & Hplay & _).
  rewrite Hload in Hpl, Hidx, Hplay. cbn in Hpl, Hidx, Hplay.
  assert (Hstep : step s (FilesChosen files) = saveState (updatePlaylist s2)).
  { unfold step. cbn [dispatch]. unfold handleFiles. rewrite Hf, Hp.
    cbn [length Nat.eqb app playlist set_playlist currentMedia]. rewrite Hm.
    unfold andThen at 1. unfold andThen at 1. unfold run at 1. cbn beta iota.
    fold s1. change (item (playlist s1) 0) with (Some f).
    rewrite Hload. reflexivity. }
  rewrite Hstep. exists el.
  assert (Hup : currentMedia (updatePlaylist s2) = currentMedia s2 /\
                playlist (updatePlaylist s2) = playlist s2 /\
                currentIndex (updatePlaylist s2) = currentIndex s2 /\
                errorMessage (updatePlaylist s2) = errorMessage s2 /\
                dropZoneHidden (updatePlaylist s2) = dropZoneHidden s2 /\
                isPlaying (updatePlaylist s2) = isPlaying s2).
  { unfold updatePlaylist. branch; repeat split; reflexivity. }
  destruct Hup as (U1 & U2 & U3 & U4 & U5 & U6).
  unfold saveState. cbn. rewrite U1, U2, U3, U4, U5, U6, Hpl, Hidx, Hplay, Hel, Htn.
  repeat split; try assumption; reflexivity.
Qed.

Lemma first_batch_loads_first_file_witness :
  exists el, currentMedia (step fresh (FilesChosen [notes; cover; song "a"])) = Some el /\
             tagName el = IMG.
Proof.
  destruct (first_batch_loads_first_file fresh [notes; cover; song "a"] cover [song "a"]
              eq_refl eq_refl eq_refl eq_refl) as (el & Hel & Htag & _).
  exists el. split; [exact Hel|].
  assert (Himg : tagOfType (majorType cover) = Some IMG) by reflexivity.
  congruence.
Defined.

(** X13.  Revoking twice is revoking once: a second [cleanupUrls] finds
    [objectUrls] empty and changes nothing. *)
Theorem cleanupUrls_idempotent (s : State) :
  step (step s BeforeUnload) BeforeUnload = step s BeforeUnload.
Proof.
  unfold step. cbn [dispatch]. unfold cleanupUrls, run. cbn [state_of objectUrls set_objectUrls].
  rewrite elements_empty. reflexivity.
Qed.

(** ** The keyboard *)

Lemma percent_in_range (v : Q) :
  (0 <= v)%Q -> (v <= 100)%Q -> volumeInRange (v / 100) = true.
Proof.
  intros H0 H1. unfold volumeInRange. apply andb_true_iff. split; apply Qle_bool_iff.
  - apply Qle_shift_div_l; [reflexivity|]. rewrite Qmult_0_l. exact H0.
  - apply Qle_shift_div_r; [reflexivity|]. rewrite Qmult_1_l. exact H1.
Qed.

Lemma slider_up_in_range (v : Q) :
  (0 <= v)%Q -> (0 <= Qmin 100 (v + 10))%Q /\ (Qmin 100 (v + 10) <= 100)%Q.
Proof.
  intros H0. split; [|apply Q.le_min_l].
  apply Q.min_glb; [vm_compute; discriminate|].
  apply Qle_trans with v; [exact H0|].
  rewrite <- (Qplus_0_r v) at 1. apply Qplus_le_r. vm_compute; discriminate.
Qed.

Lemma slider_down_in_range (v : Q) :
  (v <= 100)%Q -> (0 <= Qmax 0 (v - 10))%Q /\ (Qmax 0 (v - 10) <= 100)%Q.
Proof.
  intros H1. split; [apply Q.le_max_l|].
  apply Q.max_lub; [vm_compute; discriminate|].
  apply Qle_trans with v; [|exact H1].
  rewrite <- (Qplus_0_r v) at 2. unfold Qminus. apply Qplus_le_r. vm_compute; discriminate.
Qed.

(** X14.  The up and down arrows move the slider by ten and stop at its
    ends: from a slider between 0 and 100 the new value is [min(100, v+10)]
    or [max(0, v-10)], again between 0 and 100, the volume of the element
    becomes that value over 100, and the handler does not throw. *)
Theorem arrow_keys_keep_volume_in_range (s : State) (el : Element) :
  currentMedia s = Some el -> isAudioOrVideo el = true -> sliderInRange s ->
  (handleKeyboard ArrowUp s
     = Done (set_currentMedia
               (Some (el_set_volume (Qmin 100 (volumeSlider s + 10) / 100) el))
               (set_volumeSlider (Qmin 100 (volumeSlider s + 10)) s)) /\
   sliderInRange (step s (KeyDown ArrowUp))) /\
  (handleKeyboard ArrowDown s
     = Done (set_currentMedia
               (Some (el_set_volume (Qmax 0 (volumeSlider s - 10) / 100) el))
               (set_volumeSlider (Qmax 0 (volumeSlider s - 10)) s)) /\
   sliderInRange (step s (KeyDown ArrowDown))).
Proof.
  intros Hm Hav [H0 H1].
  destruct (slider_up_in_range _ H0) as [Hu0 Hu1].
  destruct (slider_down_in_range _ H1) as [Hd0 Hd1].
  pose proof (percent_in_range _ Hu0 Hu1) as Hup.
  pose proof (percent_in_range _ Hd0 Hd1) as Hdown.
  assert (Hkey : forall g : State -> Q, volumeInRange (g s / 100) = true ->
            (run (fun s0 => set_volumeSlider (g s0) s0) >>
             (fun s0 => setVolume (volumeSlider s0) s0)) s
            = Done (set_currentMedia (Some (el_set_volume (g s / 100) el))
                      (set_volumeSlider (g s) s))).
  { intros g Hv. unfold andThen, run, setVolume.
    cbn [currentMedia set_volumeSlider volumeSlider]. rewrite Hm.
    unfold isAudioOrVideo in Hav. destruct (tagName el); [discriminate| |];
      rewrite Hv; reflexivity. }
  unfold step, sliderInRange. cbn [dispatch]. unfold handleKeyboard. rewrite Hm.
  unfold isAudioOrVideo in Hav.
  destruct (tagName el) eqn:Htag; [discriminate| |];
    rewrite (Hkey (fun s0 => Qmin 100 (volumeSlider s0 + 10)) Hup),
            (Hkey (fun s0 => Qmax 0 (volumeSlider s0 - 10)) Hdown);
    cbn [state_of volumeSlider set_currentMedia set_volumeSlider];
    repeat split; assumption.
Qed.

Lemma arrow_keys_keep_volume_in_range_witness :
  sliderInRange threeMinutes /\
  option_map tagName (currentMedia threeMinutes) = Some AUDIO /\
  sliderInRange (step threeMinutes (KeyDown ArrowUp)).
Proof.
  assert (Hs : sliderInRange threeMinutes) by (split; vm_compute; discriminate).
  split; [exact Hs|]. split; [vm_compute; reflexivity|].
  destruct (currentMedia threeMinutes) as [el|] eqn:Hel; [|vm_compute in Hel; discriminate].
  assert (Hav : isAudioOrVideo el = true).
  { vm_compute in Hel. injection Hel as <-. reflexivity. }
  destruct (arrow_keys_keep_volume_in_range threeMinutes el Hel Hav Hs) as [[_ H] _].
  exact H.
Defined.

Lemma Math_min_Fin a b :
  Math_min (Fin a) (Fin b) = if num_ltb (Fin b) (Fin a) then Fin b else Fin a.
Proof. reflexivity. Qed.

Lemma Math_max_Fin a b :
  Math_max (Fin a) (Fin b) = if num_ltb (Fin a) (Fin b) then Fin b else Fin a.
Proof. reflexivity. Qed.

(** X15.  The left and right arrows move the position by five seconds and
    stop at the ends: with a known duration [d] and a position [t] within
    [0, d], the right arrow gives [min(d, t + 5)] and the left arrow
    [max(0, t - 5)], both again within [0, d].  While the duration is
    unknown the right arrow throws and the position stays. *)
Theorem arrow_keys_seek_within_bounds (s : State) (el : Element) (d : Q) :
  currentMedia s = Some el -> isAudioOrVideo el = true -> duration el = Fin d ->
  (0 <= currentTime el)%Q -> (currentTime el <= d)%Q ->
  (exists t', position (step s (KeyDown ArrowRight)) = Some t' /\
              Fin t' = Math_min (Fin d) (Fin (currentTime el + 5)) /\
              (currentTime el <= t')%Q /\ (t' <= d)%Q) /\
  (exists t', position (step s (KeyDown ArrowLeft)) = Some t' /\
              Fin t' = Math_max (Fin 0) (Fin (currentTime el - 5)) /\
              (0 <= t')%Q /\ (t' <= currentTime el)%Q).
Proof.
  intros Hm Hav Hd H0 H1.
  assert (Hstep : forall k q, (k = ArrowRight /\ Math_min (duration el) (Fin (currentTime el + 5)) = Fin q) \/
                             (k = ArrowLeft /\ Math_max (Fin 0) (Fin (currentTime el - 5)) = Fin q) ->
                 position (step s (KeyDown k)) = Some q).
  { intros k q Hk. unfold step, position. cbn [dispatch]. unfold handleKeyboard.
    rewrite Hm. unfold isAudioOrVideo in Hav.
    destruct (tagName el); [discriminate| |];
      destruct Hk as [[-> Hq]|[-> Hq]]; rewrite Hq;
      unfold assignCurrentTime; rewrite Hm; reflexivity. }
  assert (Hplus : (currentTime el <= currentTime el + 5)%Q).
  { rewrite <- (Qplus_0_r (currentTime el)) at 1. apply Qplus_le_r. vm_compute; discriminate. }
  assert (Hminus : (currentTime el - 5 <= currentTime el)%Q).
  { rewrite <- (Qplus_0_r (currentTime el)) at 2. unfold Qminus. apply Qplus_le_r.
    vm_compute; discriminate. }
  split.
  - rewrite Math_min_Fin. rewrite Hd in Hstep. rewrite Math_min_Fin in Hstep.
    destruct (num_ltb (Fin (currentTime el + 5)) (Fin d)) eqn:E.
    + exists (currentTime el + 5)%Q. split; [apply (Hstep ArrowRight); left; auto|].
      split; [reflexivity|]. split; [exact Hplus|].
      apply Qlt_le_weak, num_ltb_Fin, E.
    + exists d. split; [apply (Hstep ArrowRight); left; auto|].
      split; [reflexivity|]. split; [exact H1 | apply Qle_refl].
  - rewrite Math_max_Fin. rewrite Math_max_Fin in Hstep.
    destruct (num_ltb (Fin 0) (Fin (currentTime el - 5))) eqn:E.
    + exists (currentTime el - 5)%Q. split; [apply (Hstep ArrowLeft); right; auto|].
      split; [reflexivity|]. split; [|exact Hminus].
      apply Qlt_le_weak, num_ltb_Fin, E.
    + exists 0%Q. split; [apply (Hstep ArrowLeft); right; auto|].
      split; [reflexivity|]. split; [apply Qle_refl | exact H0].
Qed.

Lemma arrow_keys_seek_within_bounds_witness :
  position (step threeMinutes (KeyDown ArrowLeft)) = Some 0%Q /\
  exists t', position (step threeMinutes (KeyDown ArrowRight)) = Some t' /\ (t' <= 180)%Q.
Proof.
  split; [vm_compute; reflexivity|].
  destruct (currentMedia threeMinutes) as [el|] eqn:Hel; [|vm_compute in Hel; discriminate].
  assert (Hfacts : isAudioOrVideo el = true /\ duration el = Fin 180 /\
                   (0 <= currentTime el)%Q /\ (currentTime el <= 180)%Q).
  { vm_compute in Hel. injection Hel as <-.
    repeat split; try reflexivity; vm_compute; discriminate. }
  destruct Hfacts as (Hav & Hd & H0 & H1).
  destruct (arrow_keys_seek_within_bounds threeMinutes el 180 Hel Hav Hd H0 H1)
    as [(t' & Hp & _ & _ & Hle) _].
  exists t'. split; [exact Hp | exact Hle].
Defined.

(** ** Controls with nothing to act on *)

(** X16.  While nothing is loaded, or while an image is shown, the playback
    controls do nothing at all: play, mute, a click on the progress bar, a
    move of the thumb, every key and the media events leave the state
    exactly as it is, and a move of the volume slider only moves the
    slider. *)
Theorem controls_inert_without_playable (s : State) :
  nothingPlayable s ->
  step s PlayClick = s /\
  step s MuteClick = s /\
  (forall e, step s (ProgressClick e) = s) /\
  (forall e, step s (PointerMove e) = s) /\
  (forall k, step s (KeyDown k) = s) /\
  (forall v, step s (VolumeInput v) = set_volumeSlider v s) /\
  (forall t, step s (TimeUpdate t) = s) /\
  (forall d, step s (LoadedMetadata d) = s).
Proof.
  unfold nothingPlayable. intros Hn. unfold step. cbn [dispatch].
  unfold togglePlay, toggleMute, seek, onThumbMove, handleKeyboard, setVolume,
    andThen, run, platformSets, updateProgress, onMediaLoaded, isAudioOrVideo.
  cbn [currentMedia set_volumeSlider].
  destruct (currentMedia s) as [el|] eqn:Hm.
  - rewrite Hn. repeat split; intros; cbn; rewrite ?Hm, ?Hn; try reflexivity.
    destruct (thumbDragging s); reflexivity.
  - repeat split; intros; cbn; rewrite ?Hm; try reflexivity.
    destruct (thumbDragging s); reflexivity.
Qed.

Lemma controls_inert_without_playable_witness :
  nothingPlayable fresh /\ step fresh PlayClick = fresh /\
  step fresh (KeyDown ArrowUp) = fresh.
Proof.
  assert (Hn : nothingPlayable fresh) by exact I.
  destruct (controls_inert_without_playable fresh Hn) as (Hp & _ & _ & _ & Hk & _).
  split; [exact Hn|]. split; [exact Hp | exact (Hk ArrowUp)].
Defined.

(** ** Scrubbing *)

Lemma assignWidth_frame v s :
  assignWidth v s = set_progressFill (progressFill (assignWidth v s)) s.
Proof.
  unfold assignWidth. destruct v as [| | |q]; try (destruct s; reflexivity).
  destruct (Qle_bool 0 q); destruct s; reflexivity.
Qed.

Lemma assignWidth_element v s : currentMedia (assignWidth v s) = currentMedia s.
Proof.
  unfold assignWidth. destruct v as [| | |q]; try reflexivity.
  destruct (Qle_bool 0 q); reflexivity.
Qed.

(** X17.  Moving the thumb is a preview: a pointer move changes the
    progress fill and nothing else, so the element keeps its position until
    the pointer is released; outside a drag a move changes nothing, and a
    release outside a drag changes nothing either.  During a drag over an
    audio or video element the fill shown is the clamped fraction times
    100, unless the fraction is no number (a bar without width under the
    pointer): then the fill stays as it was. *)
Theorem thumb_move_is_a_preview (s : State) (e : Pointer) :
  step s (PointerMove e) = set_progressFill (progressFill (step s (PointerMove e))) s /\
  currentMedia (step s (PointerMove e)) = currentMedia s /\
  (thumbDragging s = false ->
     step s (PointerMove e) = s /\ step s (PointerUp e) = s) /\
  (thumbDragging s = true ->
     forall el, currentMedia s = Some el -> isAudioOrVideo el = true ->
       (pointerFraction e <> NaN ->
        progressFill (step s (PointerMove e))
          = num_mul (clamp01 (pointerFraction e)) (Fin 100)) /\
       (pointerFraction e = NaN -> step s (PointerMove e) = s)).
Proof.
  unfold step. cbn [dispatch]. unfold onThumbMove, endThumbDrag.
  split; [|split; [|split]].
  - assert (Hsame : s = set_progressFill (progressFill s) s) by (destruct s; reflexivity).
    destruct (negb (thumbDragging s)); [exact Hsame|].
    destruct (currentMedia s) as [el|]; [|exact Hsame].
    destruct (tagName el); try exact Hsame; apply assignWidth_frame.
  - destruct (negb (thumbDragging s)); [reflexivity|].
    destruct (currentMedia s) as [el|] eqn:Hm; cbn [state_of]; [|exact Hm].
    destruct (tagName el); cbn [state_of]; try exact Hm;
      rewrite assignWidth_element; exact Hm.
  - intros ->. split; reflexivity.
  - intros -> el Hm Hav. cbn [negb]. rewrite Hm.
    unfold isAudioOrVideo in Hav. split.
    + intros Hx. destruct (clamp01_range _ Hx) as (q & Hq & H0 & _).
      rewrite Hq. cbn [num_mul]. unfold assignWidth.
      assert (Hle : Qle_bool 0 (q * 100) = true).
      { apply Qle_bool_iff. apply Qmult_le_0_compat; [exact H0|].
        vm_compute. discriminate. }
      rewrite Hle. destruct (tagName el); [discriminate| |]; reflexivity.
    + intros ->. destruct (tagName el); [discriminate| |]; reflexivity.
Qed.

Lemma thumb_move_is_a_preview_witness :
  step threeMinutes (PointerUp (pointerAt 50)) = threeMinutes /\
  progressFill (step (step threeMinutes ThumbDown) (PointerMove (pointerAt 170)))
    = Fin (1 * 100).
Proof.
  split.
  - destruct (thumb_move_is_a_preview threeMinutes (pointerAt 50)) as (_ & _ & H & _).
    destruct (H eq_refl) as [_ Hup]. exact Hup.
  - destruct (currentMedia (step threeMinutes ThumbDown)) as [el|] eqn:Hel;
      [|vm_compute in Hel; discriminate].
    assert (Hav : isAudioOrVideo el = true).
    { vm_compute in Hel. injection Hel as <-. reflexivity. }
    destruct (thumb_move_is_a_preview (step threeMinutes ThumbDown) (pointerAt 170))
      as (_ & _ & _ & H).
    destruct (H eq_refl el Hel Hav) as [Hfill _].
    rewrite Hfill; [reflexivity | discriminate].
Defined.

(** X18.  After a click on the progress bar of an element with a known,
    positive duration, the fill shows the clamped fraction of the click
    times 100: the bar ends up where the user clicked, and where a preview
    of the same pointer position would have put it. *)
Theorem progress_follows_seek (s : State) (e : Pointer) (el : Element) (d q : Q) :
  currentMedia s = Some el -> isAudioOrVideo el = true ->
  duration el = Fin d -> (0 < d)%Q ->
  clamp01 (pointerFraction e) = Fin q ->
  exists p, progressFill (step s (ProgressClick e)) = Fin p /\ (p == q * 100)%Q.
Proof.
  intros Hm Hav Hd Hpos Hq. unfold step. cbn [dispatch]. unfold seek. rewrite Hm.
  assert (Hsign : Qsign d = Gt) by (apply Qgt_alt; exact Hpos).
  unfold isAudioOrVideo in Hav.
  destruct (clamp01_Fin_range _ _ Hq) as [Hq0 _].
  assert (Hle : Qle_bool 0 (q * d / d * 100) = true).
  { apply Qle_bool_iff. apply Qmult_le_0_compat; [|vm_compute; discriminate].
    apply Qle_shift_div_l; [exact Hpos|]. rewrite Qmult_0_l.
    apply Qmult_le_0_compat; [exact Hq0 | apply Qlt_le_weak, Hpos]. }
  destruct (tagName el) eqn:Htag; [discriminate| |];
    rewrite Hq, Hd; unfold andThen, assignCurrentTime, run, updateProgress;
    cbn [num_mul]; rewrite Hm;
    cbn [state_of currentMedia set_currentMedia tagName el_set_currentTime
         currentTime duration progressFill set_progressFill];
    rewrite Htag, Hd; unfold num_div; rewrite Hsign; cbn [num_mul];
    unfold assignWidth; rewrite Hle; cbn [progressFill set_progressFill];
    (eexists; split; [reflexivity|]); field;
    intros H0; rewrite H0 in Hpos; discriminate Hpos.
Qed.

Lemma progress_follows_seek_witness :
  exists p, progressFill (step threeMinutes (ProgressClick (pointerAt 170))) = Fin p /\
            (p == 100)%Q.
Proof.
  destruct (currentMedia threeMinutes) as [el|] eqn:Hel; [|vm_compute in Hel; discriminate].
  assert (Hfacts : isAudioOrVideo el = true /\ duration el = Fin 180).
  { vm_compute in Hel. injection Hel as <-. split; reflexivity. }
  destruct Hfacts as [Hav Hd].
  destruct (progress_follows_seek threeMinutes (pointerAt 170) el 180 1 Hel Hav Hd
              eq_refl eq_refl) as (p & Hp & Heq).
  exists p. split; [exact Hp|]. rewrite Heq. reflexivity.
Defined.

(** ** Errors *)

(** X19.  A media error is only shown: the panel gets the message for the
    error code, replacing whatever it showed, and the drop zone comes back
    into view, but the playlist, the index, the element, the flags and the
    object URLs are as before.  "Try Again" takes the panel away and does
    nothing else. *)
Theorem media_error_is_only_shown (s : State) (code : option Z) :
  let s' := step s (MediaError code) in
  errorMessage s'
    = Some match code with
           | Some 1 => "Media playback was aborted"
           | Some 2 => "Network error while loading media"
           | Some 3 => "Media decoding failed"
           | Some 4 => "Media format not supported"
           | _ => "Unable to play this media file"
           end /\
  dropZoneHidden s' = false /\
  s' = set_errorMessage (errorMessage s') (set_dropZoneHidden false s) /\
  (forall code0, step (step s (MediaError code0)) (MediaError code) = s') /\
  errorMessage (step s' RetryClick) = None /\
  step s' RetryClick = set_errorMessage None (set_dropZoneHidden false s).
Proof.
  unfold step. cbn [dispatch]. unfold handleMediaError, run, showError, clearError.
  cbn. repeat split; destruct s; reflexivity.
Qed.

(** ** Play and mute *)

(** X20.  One press of play on an audio or video element brings the flag
    and the button into line, whatever they were: the flag is inverted and
    the button shows the pause glyph exactly when [isPlaying] is true
    afterwards.  A press that finds the flag set pauses the element, so of
    two presses in a row one leaves the element paused.  The second press
    gives the flag back, and neither press touches the source or the
    position of the element. *)
Theorem togglePlay_resynchronises (s : State) (el : Element) :
  currentMedia s = Some el -> isAudioOrVideo el = true ->
  let s1 := step s PlayClick in
  let s2 := step s1 PlayClick in
  isPlaying s1 = negb (isPlaying s) /\
  playBtn s1 = (if isPlaying s1 then GlyphPause else GlyphPlay) /\
  (isPlaying s = true -> option_map paused (currentMedia s1) = Some true) /\
  isPlaying s2 = isPlaying s /\
  playBtn s2 = (if isPlaying s2 then GlyphPause else GlyphPlay) /\
  (isPlaying s = false -> option_map paused (currentMedia s2) = Some true) /\
  option_map src (currentMedia s1) = Some (src el) /\
  position s1 = Some (currentTime el) /\
  option_map src (currentMedia s2) = Some (src el) /\
  position s2 = Some (currentTime el).
Proof.
  intros Hm Hav. unfold step, position. cbn [dispatch]. unfold togglePlay. rewrite Hm.
  unfold isAudioOrVideo in Hav.
  destruct (tagName el) eqn:Htag; [discriminate| |];
    destruct (isPlaying s) eqn:Hp; cbn; rewrite ?Htag, ?Hp; cbn; rewrite ?Hp;
    repeat split; try reflexivity; try discriminate.
Qed.

Lemma togglePlay_resynchronises_witness :
  isPlaying (step playingFirst (NextClick 0)) = true /\
  isPlaying (step (step playingFirst (NextClick 0)) PlayClick) = false /\
  playBtn (step (step playingFirst (NextClick 0)) PlayClick) = GlyphPlay /\
  option_map paused (currentMedia (step (step playingFirst (NextClick 0)) PlayClick))
    = Some true.
Proof.
  destruct (currentMedia (step playingFirst (NextClick 0))) as [el|] eqn:Hel;
    [|vm_compute in Hel; discriminate].
  assert (Hav : isAudioOrVideo el = true).
  { vm_compute in Hel. injection Hel as <-. reflexivity. }
  assert (Hset : isPlaying (step playingFirst (NextClick 0)) = true)
    by (vm_compute; reflexivity).
  destruct (togglePlay_resynchronises (step playingFirst (NextClick 0)) el Hel Hav)
    as (H1 & H2 & H3 & _).
  split; [exact Hset|].
  split; [rewrite H1, Hset; reflexivity|].
  split; [rewrite H2, H1, Hset; reflexivity | exact (H3 Hset)].
Defined.

(** X21.  Mute is its own inverse: the button inverts the [muted] attribute
    of an audio or video element and touches nothing else, so two presses
    give back the state exactly, in every state. *)
Theorem toggleMute_involutive (s : State) :
  step (step s MuteClick) MuteClick = s /\
  (forall el, currentMedia s = Some el -> isAudioOrVideo el = true ->
     currentMedia (step s MuteClick) = Some (el_set_muted (negb (muted el)) el)).
Proof.
  unfold step. cbn [dispatch]. unfold toggleMute. split.
  - destruct s as [[el|] ? ? ? ? ? ? ? ? ? ? ? ? ? ? ? ?]; cbn; [|reflexivity].
    destruct el as [tag ? ? ? ? m ?]. destruct tag; cbn; try reflexivity;
      rewrite negb_involutive; reflexivity.
  - intros el Hm Hav. rewrite Hm. unfold isAudioOrVideo in Hav.
    destruct (tagName el); [discriminate| |]; reflexivity.
Qed.

Lemma toggleMute_involutive_witness :
  option_map muted (currentMedia (step playingFirst MuteClick)) = Some true.
Proof.
  destruct (currentMedia playingFirst) as [el|] eqn:Hel; [|vm_compute in Hel; discriminate].
  assert (Hfacts : isAudioOrVideo el = true /\ muted el = false).
  { vm_compute in Hel. injection Hel as <-. split; reflexivity. }
  destruct Hfacts as [Hav Hmu].
  destruct (toggleMute_involutive playingFirst) as [_ H].
  rewrite (H el Hel Hav). cbn. rewrite Hmu. reflexivity.
Defined.

(** ** The time text *)

Lemma Qfloor_div_60 (q : Q) : Qfloor (q / 60) = Qfloor q / 60.
Proof.
  destruct q as [n d]. unfold Qdiv, Qmult, Qinv, Qfloor. cbn [Qnum Qden].
  rewrite Z.mul_1_r, Pos2Z.inj_mul. symmetry. apply Z.div_div; lia.
Qed.

Lemma Qfloor_minus_60 (q : Q) (m : Z) :
  Qfloor (q - 60 * inject_Z m) = Qfloor q - 60 * m.
Proof.
  destruct q as [n d]. unfold Qminus, Qplus, Qopp, Qmult, inject_Z, Qfloor.
  cbn [Qnum Qden]. rewrite !Pos.mul_1_r, Z.mul_1_r.
  replace (n + - (60 * m) * Z.pos d) with (n + (- (60 * m)) * Z.pos d) by lia.
  rewrite Z.div_add by lia. lia.
Qed.

Lemma Qtrunc_nonneg (q : Q) : (0 <= q)%Q -> Qtrunc q = Qfloor q.
Proof.
  intros H. unfold Qtrunc. apply Qle_bool_iff in H. rewrite H. reflexivity.
Qed.

Lemma formatTime_nonneg (q : Q) :
  (0 <= q)%Q ->
  formatTime (Fin q)
  = (padStart2 (String_of (Qfloor q / 60)) ++ ":" ++
     padStart2 (String_of (Qfloor q mod 60)))%string.
Proof.
  intros Hq. unfold formatTime. cbn [isNaN].
  replace (num_div (Fin q) (Fin 60)) with (Fin (q / 60)) by reflexivity.
  replace (num_rem (Fin q) (Fin 60))
    with (Fin (q - 60 * inject_Z (Qtrunc (q / 60)))) by reflexivity.
  cbn [Math_floor toString].
  assert (H60 : (0 <= q / 60)%Q).
  { apply Qle_shift_div_l; [reflexivity|]. rewrite Qmult_0_l. exact Hq. }
  rewrite (Qtrunc_nonneg _ H60), Qfloor_minus_60, Qfloor_div_60.
  rewrite (Z.mod_eq (Qfloor q) 60) by lia. reflexivity.
Qed.

Lemma Qfloor_nonneg (q : Q) : (0 <= q)%Q -> 0 <= Qfloor q.
Proof. intros H. change 0 with (Qfloor 0). apply Qfloor_resp_le, H. Qed.

Lemma Qfloor_below (q : Q) (k : Z) : (q < inject_Z k)%Q -> Qfloor q < k.
Proof.
  intros H. rewrite Zlt_Qlt. eapply Qle_lt_trans; [apply Qfloor_le | exact H].
Qed.



Lemma two_digits_table :
  forallb (fun n => (String.length (padStart2 (String_of (Z.of_nat n))) =? 2)%nat)
          (seq 0 100) = true.
Proof. vm_compute. reflexivity. Qed.

Lemma padStart2_two_digits (z : Z) :
  0 <= z < 100 -> String.length (padStart2 (String_of z)) = 2%nat.
Proof.
  intros Hz. pose proof two_digits_table as H. rewrite forallb_forall in H.
  specialize (H (Z.to_nat z)). rewrite Z2Nat.id in H by lia.
  apply Nat.eqb_eq, H. apply in_seq. lia.
Qed.

Lemma length_append (a b : string) :
  String.length (a ++ b) = (String.length a + String.length b)%nat.
Proof. induction a as [|c a IH]; [reflexivity | exact (f_equal S IH)]. Qed.

(** X24.  Below a hundred minutes the time text has the fixed shape MM:SS:
    five characters for every time from 0 up to, but not including, 6000
    seconds, so the label [MM:SS / MM:SS] of an element is thirteen
    characters wide. *)
Theorem formatTime_fixed_width (el : Element) (d : Q) :
  duration el = Fin d ->
  (0 <= currentTime el)%Q -> (currentTime el < 6000)%Q ->
  (0 <= d)%Q -> (d < 6000)%Q ->
  String.length (formatTime (Fin (currentTime el))) = 5%nat /\
  String.length (formatTime (Fin d)) = 5%nat /\
  String.length (timeText el) = 13%nat.
Proof.
  intros Hd Ht0 Ht1 Hd0 Hd1.
  assert (Hwidth : forall q, (0 <= q)%Q -> (q < 6000)%Q ->
                             String.length (formatTime (Fin q)) = 5%nat).
  { intros q H0 H1. rewrite (formatTime_nonneg q H0).
    pose proof (Qfloor_nonneg q H0) as Hf0.
    pose proof (Qfloor_below q 6000 H1) as Hf1.
    assert (Hm : 0 <= Qfloor q / 60 < 100).
    { split; [apply Z.div_pos; lia | apply Z.div_lt_upper_bound; lia]. }
    assert (Hs : 0 <= Qfloor q mod 60 < 100).
    { pose proof (Z.mod_pos_bound (Qfloor q) 60). lia. }
    rewrite !length_append, (padStart2_two_digits _ Hm), (padStart2_two_digits _ Hs).
    reflexivity. }
  pose proof (Hwidth _ Ht0 Ht1) as H1. pose proof (Hwidth _ Hd0 Hd1) as H2.
  split; [exact H1|]. split; [exact H2|].
  unfold timeText. rewrite Hd, !length_append, H1, H2. reflexivity.
Qed.

Lemma formatTime_fixed_width_witness :
  match currentMedia threeMinutes with
  | Some el => String.length (timeText el) = 13%nat
  | None => False
  end.
Proof.
  destruct (currentMedia threeMinutes) as [el|] eqn:Hel; [|vm_compute in Hel; discriminate].
  assert (Hfacts : duration el = Fin 180 /\ (0 <= currentTime el)%Q /\
                   (currentTime el < 6000)%Q).
  { vm_compute in Hel. injection Hel as <-.
    split; [reflexivity|]. split; [vm_compute; discriminate | reflexivity]. }
  destruct Hfacts as (Hd & H0 & H1).
  assert (Hd0 : (0 <= 180)%Q) by (vm_compute; discriminate).
  assert (Hd1 : (180 < 6000)%Q) by reflexivity.
  destruct (formatTime_fixed_width el 180 Hd H0 H1 Hd0 Hd1) as (_ & _ & H). exact H.
Defined.

(** ** The listing *)

(** An event leaves the listing alone or renders it anew from the playlist
    and the index it ends with. *)
Lemma loadMedia_listing file s :
  playlistEl (state_of (loadMedia file s)) = playlistEl s \/
  playlistEl (state_of (loadMedia file s))
    = playlistEl (updatePlaylist (state_of (loadMedia file s))).
Proof.
  load_cases; try congruence; try (left; reflexivity); right; reflexivity.
Qed.

Lemma updatePlaylist_labelled s : listingLabelled (updatePlaylist s).
Proof.
  unfold listingLabelled, updatePlaylist.
  destruct (length (playlist s) <=? 1)%nat; cbn; [exact I|].
  exists []. rewrite app_nil_r. reflexivity.
Qed.

Lemma rendered_labelled s :
  playlistEl s = playlistEl (updatePlaylist s) -> listingLabelled s.
Proof.
  intros H. pose proof (updatePlaylist_labelled s) as Hl.
  unfold listingLabelled in *. rewrite H.
  replace (playlist s) with (playlist (updatePlaylist s)); [exact Hl|].
  unfold updatePlaylist. branch; reflexivity.
Qed.

Lemma grown_labelled s s' more :
  listingLabelled s -> playlistEl s' = playlistEl s ->
  playlist s' = (playlist s ++ more)%list -> listingLabelled s'.
Proof.
  unfold listingLabelled. intros Hl Hv Hp. rewrite Hv, Hp.
  destruct (playlistEl s); try exact I.
  destruct Hl as [rest Hrest]. exists (rest ++ map File.name more)%list.
  rewrite map_app, Hrest, app_assoc. reflexivity.
Qed.

Lemma loadThenSave_listing file s :
  let s' := state_of ((loadMedia file >> run saveState) s) in
  playlistEl s' = playlistEl s \/ playlistEl s' = playlistEl (updatePlaylist s').
Proof.
  cbn zeta. pose proof (loadMedia_listing file s) as H. unfold andThen, run.
  destruct (loadMedia file s) as [s1|s1]; cbn in *; [|exact H].
  destruct H as [H|H]; [left; exact H|right]. rewrite H at 1.
  unfold updatePlaylist, saveState. branch; try congruence; reflexivity.
Qed.

Lemma render_idempotent s :
  playlistEl (saveState (updatePlaylist s))
  = playlistEl (updatePlaylist (saveState (updatePlaylist s))).
Proof. unfold updatePlaylist, saveState. branch; try congruence; reflexivity. Qed.

Lemma handleFiles_listing files s :
  playlistEl (state_of (handleFiles files s)) = playlistEl s \/
  playlistEl (state_of (handleFiles files s))
    = playlistEl (updatePlaylist (state_of (handleFiles files s))).
Proof.
  remember (state_of (handleFiles files s)) as s' eqn:Hs'.
  unfold handleFiles in Hs'.
  destruct (length (List.filter isMediaFile files) =? 0)%nat.
  { left. subst s'. reflexivity. }
  cbn [playlist set_playlist currentMedia] in Hs'.
  destruct (length (playlist s ++ List.filter isMediaFile files) =? 0)%nat.
  { left. subst s'. reflexivity. }
  destruct (currentMedia s) as [el|].
  - right. subst s'. unfold andThen, run. cbn [state_of id]. apply render_idempotent.
  - unfold andThen at 1 in Hs'. unfold andThen at 1 in Hs'.
    unfold run at 1 in Hs'. cbn beta iota in Hs'.
    set (s1 := set_currentIndex 0
                 (set_playlist (playlist s ++ List.filter isMediaFile files) s)) in *.
    pose proof (loadMedia_listing (item (playlist s1) 0) s1) as H.
    destruct (loadMedia (item (playlist s1) 0) s1) as [s2|s2]; cbn in H.
    + right. subst s'. unfold andThen, run. cbn [state_of]. apply render_idempotent.
    + cbn in Hs'. subst s'. exact H.
Qed.

Lemma step_listing s ev :
  playlistEl (step s ev) = playlistEl s \/
  playlistEl (step s ev) = playlistEl (updatePlaylist (step s ev)).
Proof.
  destruct (quiet ev) eqn:Hq.
  { left. apply (core_view _ _ (quiet_core s ev Hq)). }
  unfold step. destruct ev; try discriminate Hq; cbn [dispatch].
  - apply handleFiles_listing.
  - unfold playPrevious. destruct (length (playlist s) =? 0)%nat; [left; reflexivity|].
    destruct (shuffle s);
      match goal with
      | |- context [(loadMedia ?f >> _) ?s1] => exact (loadThenSave_listing f s1)
      end.
  - unfold playNext. destruct (length (playlist s) =? 0)%nat; [left; reflexivity|].
    destruct (shuffle s);
      match goal with
      | |- context [(loadMedia ?f >> _) ?s1] => exact (loadThenSave_listing f s1)
      end.
  - destruct (clickedIdx (playlistEl s) idx) as [i|]; [|left; reflexivity].
    unfold playlistItemClick. unfold andThen at 1. unfold run at 1.
    exact (loadThenSave_listing
             (item (playlist (set_currentIndex i s)) i) (set_currentIndex i s)).
  - unfold onMediaEnded. destruct (loop s).
    + left. destruct (currentMedia s) as [el|]; [|reflexivity].
      destruct (tagName el); try reflexivity;
        apply (core_view _ _ (loopReplay_core s)).
    + unfold playNext. destruct (length (playlist s) =? 0)%nat; [left; reflexivity|].
      destruct (shuffle s);
        match goal with
        | |- context [(loadMedia ?f >> _) ?s1] => exact (loadThenSave_listing f s1)
        end.
  - left. unfold cleanupUrls, run. cbn.
    apply (revokeAll_fields (elements (objectUrls s)) s).
Qed.

Lemma step_labelled s ev : listingLabelled s -> listingLabelled (step s ev).
Proof.
  intros Hl. destruct (step_listing s ev) as [H|H].
  - destruct (step_frame s ev) as [Hp _]. exact (grown_labelled s _ _ Hl H Hp).
  - apply rendered_labelled, H.
Qed.

Lemma reachable_labelled s : reachable s -> listingLabelled s.
Proof.
  induction 1 as [store slider | s ev _ IH _].
  - unfold listingLabelled, constructor, restoreState, tryCatch. cbn.
    destruct (savedPlaylistFound (ump_playlist_meta store)) as [[|]|]; exact I.
  - apply step_labelled, IH.
Qed.

(** ** Sessions whose file names are plain text *)

Lemma reachablePlain_reachable s : reachablePlain s -> reachable s.
Proof.
  induction 1 as [store slider | s ev _ IH Hwf _];
    [apply reach_init | apply reach_step; assumption].
Qed.

Lemma labelled_plain s :
  listingLabelled s ->
  Forall (fun f => plainName (File.name f) = true) (playlist s) -> plainNames s.
Proof.
  intros Hl Hp. split; [exact Hp|]. unfold listingLabelled in Hl.
  destruct (playlistEl s) as [| |names active]; try exact I.
  destruct Hl as [rest Hrest].
  assert (Hall : Forall (fun n => plainName n = true) (map File.name (playlist s))).
  { rewrite Forall_fmap. exact Hp. }
  rewrite Hrest in Hall. apply Forall_app in Hall. tauto.
Qed.

Lemma reachablePlain_plainNames s : reachablePlain s -> plainNames s.
Proof.
  intros Hr. apply labelled_plain.
  { apply reachable_labelled, reachablePlain_reachable, Hr. }
  induction Hr as [store slider | s ev _ IH _ Hplain].
  - destruct (constructor_fields store slider) as [-> _]. constructor.
  - destruct (step_frame s ev) as [-> _]. apply Forall_app. split; assumption.
Qed.

Lemma reachablePlain_Inv s : reachablePlain s -> Inv s.
Proof.
  induction 1 as [store slider | s ev Hr IH Hwf _].
  - apply constructor_Inv.
  - apply step_Inv; [exact Hwf | apply reachablePlain_plainNames, Hr | exact IH].
Qed.

Lemma reachablePlain_after s evs :
  reachablePlain s -> Forall wellFormed evs -> Forall plainEvent evs ->
  reachablePlain (after s evs).
Proof.
  intros Hs Hwf. revert s Hs. unfold after.
  induction Hwf as [|ev evs Hev _ IH]; intros s Hs Hplain; cbn; [exact Hs|].
  apply Forall_cons in Hplain. destruct Hplain as [Hp Hps].
  apply IH; [apply plain_step; assumption | exact Hps].
Qed.

Lemma playingFirst_plain : reachablePlain playingFirst.
Proof.
  apply reachablePlain_after; [apply plain_init | repeat constructor |].
  repeat constructor.
Qed.

(** X26.  In a session whose file names are plain text, [currentIndex]
    names an item of the playlist whenever there is one, and every event
    keeps it so.  With [shuffle] on, Next and Previous leave an index
    within the playlist; with [shuffle] off they move the index by one,
    modulo the length. *)
Theorem plain_names_keep_index_in_range (s : State) :
  reachablePlain s ->
  indexInRange s /\
  (forall ev, wellFormed ev -> plainEvent ev -> indexInRange (step s ev)) /\
  (playlist s <> [] ->
   let n := Z.of_nat (length (playlist s)) in
   (shuffle s = true ->
    forall r, unitDraw r ->
      0 <= currentIndex (step s (NextClick r)) < n /\
      0 <= currentIndex (step s (PrevClick r)) < n) /\
   (shuffle s = false ->
    forall r,
      currentIndex (step s (NextClick r)) = (currentIndex s + 1) mod n /\
      currentIndex (step s (PrevClick r)) = (currentIndex s - 1) mod n)).
Proof.
  intros Hreach. pose proof (reachablePlain_Inv s Hreach) as HI.
  split; [apply HI | split].
  - intros ev Hwf Hplain.
    apply (reachablePlain_Inv (step s ev)). apply plain_step; assumption.
  - intros Hne n. pose proof (length_pos_of_nonempty _ Hne) as Hpos.
    pose proof (inv_index _ HI Hne) as Hidx. split; intros Hsh r.
    + intros Hr. destruct (advance_index r s Hne) as [Hn Hp].
      rewrite Hn, Hp, Hsh. split; apply floor_scaled_range; assumption.
    + destruct (advance_index r s Hne) as [Hn Hp]. rewrite Hn, Hp, Hsh.
      split; [apply next_index_wraps | apply previous_index_wraps]; exact Hidx.
Qed.

Lemma plain_names_keep_index_in_range_witness :
  reachablePlain playingFirst /\
  0 <= currentIndex playingFirst < 2 /\
  currentIndex (step playingFirst (NextClick 0)) = 1 /\
  currentIndex (step playingFirst (PrevClick 0)) = 1 /\
  0 <= currentIndex (step (step playingFirst ShuffleClick) (NextClick (3 # 4))) < 2.
Proof.
  assert (R : reachablePlain playingFirst) by exact playingFirst_plain.
  assert (R' : reachablePlain (step playingFirst ShuffleClick)).
  { apply plain_step; [exact R | exact I | constructor]. }
  assert (Hne : playlist playingFirst <> []) by (vm_compute; discriminate).
  assert (Hne' : playlist (step playingFirst ShuffleClick) <> [])
    by (vm_compute; discriminate).
  assert (Hdraw : unitDraw (3 # 4)) by (split; [vm_compute; discriminate | reflexivity]).
  destruct (plain_names_keep_index_in_range playingFirst R) as (Hin & _ & Hadv).
  destruct (Hadv Hne) as [_ Hplain].
  destruct (Hplain eq_refl 0%Q) as [Hnext Hprev].
  destruct (plain_names_keep_index_in_range _ R') as (_ & _ & Hadv').
  destruct (Hadv' Hne') as [Hshuf _].
  destruct (Hshuf eq_refl (3 # 4)%Q Hdraw) as [Hsn _].
  split; [exact R|]. split; [exact (Hin Hne)|].
  split; [exact Hnext|]. split; [exact Hprev | exact Hsn].
Defined.

(** X22.  In a session whose file names are plain text, the Play button of
    entry [i] of the listing selects item [i]: the entry exists only for
    an item of the playlist, its button hands [i] to the handler,
    [currentIndex] becomes [i], the item is loaded under a fresh URL and
    the error panel is emptied; the playlist is not changed.  Past the
    last entry there is nothing to click. *)
Theorem playlist_entry_click_selects (s : State) (i : nat) :
  reachablePlain s ->
  ((i < buttons (playlistEl s))%nat ->
     exists f, playlist s !! i = Some f /\
       clickedIdx (playlistEl s) i = Some (Z.of_nat i) /\
       currentIndex (step s (PlaylistButtonClick i)) = Z.of_nat i /\
       urlCounter (step s (PlaylistButtonClick i)) = S (urlCounter s) /\
       errorMessage (step s (PlaylistButtonClick i)) = None /\
       playlist (step s (PlaylistButtonClick i)) = playlist s) /\
  ((buttons (playlistEl s) <= i)%nat -> step s (PlaylistButtonClick i) = s).
Proof.
  intros Hr. pose proof (reachablePlain_Inv s Hr) as HI.
  pose proof (reachablePlain_plainNames s Hr) as [_ Hplain].
  pose proof (reachable_allMedia s (reachablePlain_reachable s Hr)) as Hall.
  unfold allMedia in Hall. rewrite List.Forall_forall in Hall.
  pose proof (inv_buttons _ HI) as Hb. unfold buttonsListed in Hb.
  unfold step. cbn [dispatch]. unfold clickedIdx, buttons in *.
  destruct (playlistEl s) as [| |names active];
    try (split; [cbn; lia | reflexivity]).
  split.
  - intros Hi.
    destruct (lookup_lt_is_Some_2 names i Hi) as [n Hn]. rewrite Hn.
    rewrite Forall_lookup in Hplain. rewrite (Hplain i n Hn).
    destruct (lookup_lt_is_Some_2 (playlist s) i) as [f Hf]; [lia|].
    assert (Hin : In f (playlist s)).
    { apply list_elem_of_In, list_elem_of_lookup. eauto. }
    destruct (isMediaFile_supported f (Hall f Hin)) as [tag Htag].
    exists f. split; [exact Hf|]. split; [reflexivity|].
    unfold playlistItemClick, andThen, run. cbn beta iota.
    set (s1 := set_currentIndex (Z.of_nat i) s).
    assert (Hitem : item (playlist s1) (Z.of_nat i) = Some f).
    { unfold item. destruct (Z.ltb_spec (Z.of_nat i) 0) as [|_]; [lia|].
      rewrite Nat2Z.id. exact Hf. }
    rewrite Hitem.
    destruct (loadMedia_frame (Some f) s1) as (Hpl & Hidx & _).
    pose proof (loadMedia_mints f s1 tag Htag) as Hmint.
    pose proof (loadMedia_supported_no_error f s1 tag Htag) as Herr.
    destruct (loadMedia (Some f) s1) as [s2|s2];
      cbn in *; repeat split; assumption.
  - intros Hi. rewrite (lookup_ge_None_2 names i Hi). reflexivity.
Qed.

Lemma playlist_entry_click_selects_witness :
  reachablePlain playingFirst /\ (1 < buttons (playlistEl playingFirst))%nat /\
  currentIndex (step playingFirst (PlaylistButtonClick 1)) = 1.
Proof.
  assert (R : reachablePlain playingFirst) by exact playingFirst_plain.
  assert (Hi : (1 < buttons (playlistEl playingFirst))%nat) by (vm_compute; lia).
  split; [exact R|]. split; [exact Hi|].
  destruct (playlist_entry_click_selects playingFirst 1 R) as [H _].
  destruct (H Hi) as (f & _ & _ & Hidx & _). exact Hidx.
Defined.

(** X25.  In a session whose file names are plain text, every entry of
    the listing shows the name of the item its Play button plays: if the
    listing was built from [names], then for every [i] below the number of
    entries the name [names[i]] is plain text, which the entry shows as it
    is, and item [i] of the playlist exists and is called [names[i]]. *)
Theorem listing_entries_name_their_items
    (s : State) (names : list string) (active : Z) (i : nat) (label : string) :
  reachablePlain s -> playlistEl s = ViewItems names active -> names !! i = Some label ->
  plainName label = true /\
  exists f, playlist s !! i = Some f /\ File.name f = label.
Proof.
  intros Hr Hv Hi.
  pose proof (reachablePlain_plainNames s Hr) as [_ Hplain].
  pose proof (reachable_labelled s (reachablePlain_reachable s Hr)) as Hl.
  rewrite Hv in Hplain. rewrite Forall_lookup in Hplain.
  split; [exact (Hplain i label Hi)|].
  unfold listingLabelled in Hl. rewrite Hv in Hl. destruct Hl as [rest Hrest].
  assert (Hmap : map File.name (playlist s) !! i = Some label).
  { rewrite Hrest. apply lookup_app_l_Some, Hi. }
  rewrite list_lookup_fmap in Hmap.
  destruct (playlist s !! i) as [f|]; [|discriminate].
  exists f. split; [reflexivity|]. cbn in Hmap. congruence.
Qed.

Lemma listing_entries_name_their_items_witness :
  reachablePlain playingFirst /\
  playlistEl playingFirst = ViewItems ["a"; "b"] 0 /\
  exists f, playlist playingFirst !! 1%nat = Some f /\ File.name f = "b".
Proof.
  assert (R : reachablePlain playingFirst) by exact playingFirst_plain.
  assert (Hv : playlistEl playingFirst = ViewItems ["a"; "b"] 0) by (vm_compute; reflexivity).
  split; [exact R|]. split; [exact Hv|].
  destruct (listing_entries_name_their_items playingFirst ["a"; "b"] 0 1 "b" R Hv eq_refl)
    as [_ H].
  exact H.
Defined.
